(** * sealed-secrets-ui: the value parser and the sealing pipeline

    A shallow embedding of the Go code of [web/handlers] (the textarea
    parser [parseKeyValuePairs]) and of package [sealedsecret] (label and
    scope resolution, the merge of stored and submitted values, per-value
    encryption and the assembly of the SealedSecret record), followed by the
    properties of the specification that concern them.

    Go strings are byte sequences: they are modelled by [string] (a list of
    8-bit characters).  Go maps with string keys are [gmap string _]; a nil
    map reads like the empty map and is modelled by [∅]. *)

From Stdlib Require Import Strings.String Strings.Ascii Numbers.DecimalString.
From stdpp Require Import base gmap strings list fin_maps sorting.

Local Open Scope string_scope.

(** ** Go's [error] values and [(T, error)] results *)

Inductive error : Type :=
| errorString (msg : string)                     (* errors.New, fmt.Errorf without %w *)
| wrapError (msg : string) (cause : error)       (* fmt.Errorf("...: %w", err) *)
| StatusError (reason : string) (code : nat) (msg : string).
                                    (* k8s.io/apimachinery api errors: the
                                       reason and the HTTP code of the status *)

Definition Error (e : error) : string :=
  match e with
  | errorString msg => msg
  | wrapError msg _ => msg
  | StatusError _ _ msg => msg
  end.

(** [fmt.Errorf(prefix + ": %w", err)] *)
Definition Errorf_w (prefix : string) (err : error) : error :=
  wrapError (prefix +:+ ": " +:+ Error err) err.

(** A Go result pair [(v, err)] whose value is only meaningful when [err]
    is nil. *)
Inductive Result (T : Type) : Type :=
| Ok (v : T)
| Err (e : error).
Arguments Ok {T} v.
Arguments Err {T} e.

Definition isErr {T} (r : Result T) : bool :=
  match r with Ok _ => false | Err _ => true end.

(** [%v] of a non-negative [int] *)
Definition itoa (i : nat) : string := NilZero.string_of_uint (Nat.to_uint i).

(** ** Package [strings] of the Go standard library

    The functions the parser calls, written as the library defines them. *)
Module strings.

(** [s[n:]] and [s[:n]] *)
Fixpoint drop (n : nat) (s : string) : string :=
  match n, s with
  | O, _ => s
  | S n', String _ r => drop n' r
  | S _, EmptyString => EmptyString
  end.

Fixpoint take (n : nat) (s : string) : string :=
  match n, s with
  | S n', String c r => String c (take n' r)
  | _, _ => EmptyString
  end.

(** [len(s) >= len(prefix) && s[:len(prefix)] == prefix] *)
Definition HasPrefix (s prefix : string) : bool :=
  (String.length prefix <=? String.length s)%nat
  && String.eqb (take (String.length prefix) s) prefix.

(** [len(s) >= len(suffix) && s[len(s)-len(suffix):] == suffix] *)
Definition HasSuffix (s suffix : string) : bool :=
  (String.length suffix <=? String.length s)%nat
  && String.eqb (drop (String.length s - String.length suffix) s) suffix.

Definition CutPrefix (s prefix : string) : string * bool :=
  if HasPrefix s prefix then (drop (String.length prefix) s, true)
  else (s, false).

Definition CutSuffix (s suffix : string) : string * bool :=
  if HasSuffix s suffix
  then (take (String.length s - String.length suffix) s, true)
  else (s, false).

(** [strings.Cut(s, sep)] for a one-byte separator: the text before and
    after the first occurrence of [sep], when there is one. *)
Fixpoint Cut (s : string) (sep : ascii) : option (string * string) :=
  match s with
  | EmptyString => None
  | String c r =>
      if Ascii.eqb c sep then Some (EmptyString, r)
      else match Cut r sep with
           | Some (before, after) => Some (String c before, after)
           | None => None
           end
  end.

(** [strings.Split(s, sep)] for a one-byte separator; the result is never
    empty, and [Split("", sep)] is the one-element list [[""]]. *)
Fixpoint Split (s : string) (sep : ascii) : list string :=
  match s with
  | EmptyString => [EmptyString]
  | String c r =>
      if Ascii.eqb c sep then EmptyString :: Split r sep
      else match Split r sep with
           | h :: t => String c h :: t
           | [] => [String c EmptyString]
           end
  end.

(** [strings.SplitN(s, sep, 2)] for a one-byte separator: at most two
    pieces, the second being the unsplit remainder. *)
Definition SplitN2 (s : string) (sep : ascii) : list string :=
  match Cut s sep with
  | Some (before, after) => [before; after]
  | None => [s]
  end.

(** [strings.ReplaceAll(s, old, new)] for a non-empty [old]: the
    non-overlapping occurrences of [old] are replaced from the left.  The
    recursion is bounded by the number of bytes left to scan. *)
Fixpoint replaceFrom (fuel : nat) (s old new : string) : string :=
  match fuel with
  | O => s
  | S fuel' =>
      if HasPrefix s old
      then new +:+ replaceFrom fuel' (drop (String.length old) s) old new
      else match s with
           | EmptyString => EmptyString
           | String c r => String c (replaceFrom fuel' r old new)
           end
  end.

Definition ReplaceAll (s old new : string) : string :=
  replaceFrom (S (String.length s)) s old new.

(** [strings.Contains(s, string(c))] *)
Fixpoint ContainsByte (s : string) (c : ascii) : bool :=
  match s with
  | EmptyString => false
  | String c' r => Ascii.eqb c' c || ContainsByte r c
  end.

(** [strings.Count(s, string(c))] *)
Fixpoint CountByte (s : string) (c : ascii) : nat :=
  match s with
  | EmptyString => 0
  | String c' r => (if Ascii.eqb c' c then 1 else 0) + CountByte r c
  end.

(** the table [asciiSpace]: tab, line feed, vertical tab, form feed,
    carriage return and space *)
Definition asciiSpace (c : ascii) : bool :=
  Ascii.eqb c "009"%char || Ascii.eqb c "010"%char || Ascii.eqb c "011"%char
  || Ascii.eqb c "012"%char || Ascii.eqb c "013"%char || Ascii.eqb c " "%char.

(** [c >= utf8.RuneSelf] *)
Definition nonASCII (c : ascii) : bool := (128 <=? nat_of_ascii c)%nat.

Section TrimSpace.

(** [TrimFunc(s, unicode.IsSpace)] and [TrimRightFunc(s, unicode.IsSpace)],
    to which [TrimSpace] hands over at the first byte that is not ASCII. *)
Variables TrimFunc_IsSpace TrimRightFunc_IsSpace : string → string.

(** the first loop: [inr] is [s[start:]] when the loop ends, [inl] the
    result of the hand-over *)
Fixpoint trimStart (s : string) : string + string :=
  match s with
  | EmptyString => inr EmptyString
  | String c r =>
      if nonASCII c then inl (TrimFunc_IsSpace s)
      else if asciiSpace c then trimStart r
      else inr s
  end.

(** the second loop on [t = s[start:]], from [stop] downwards *)
Fixpoint trimStop (stop : nat) (t : string) : string :=
  match stop with
  | O => EmptyString
  | S stop' =>
      match String.get stop' t with
      | Some c =>
          if nonASCII c then TrimRightFunc_IsSpace (take stop t)
          else if asciiSpace c then trimStop stop' t
          else take stop t
      | None => EmptyString
      end
  end.

Definition TrimSpace (s : string) : string :=
  match trimStart s with
  | inl trimmed => trimmed
  | inr t => trimStop (String.length t) t
  end.

End TrimSpace.

End strings.

(** ** Package [html] of the Go standard library *)
Module html.

(** what [htmlEscaper] puts for one byte *)
Definition escapeByte (c : ascii) : string :=
  if Ascii.eqb c "&"%char then "&amp;"
  else if Ascii.eqb c "'"%char then "&#39;"
  else if Ascii.eqb c "<"%char then "&lt;"
  else if Ascii.eqb c ">"%char then "&gt;"
  else if Ascii.eqb c "034"%char then "&#34;"
  else String c EmptyString.

Fixpoint EscapeString (s : string) : string :=
  match s with
  | EmptyString => EmptyString
  | String c r => escapeByte c +:+ EscapeString r
  end.

End html.

(** ** Package [sort] of the Go standard library *)
Module sort.

(** [a <= b] on Go strings: bytes compared as unsigned numbers, a proper
    prefix first *)
Definition string_le (a b : string) : Prop := String.leb a b = true.

#[global] Instance string_le_dec : RelDecision string_le :=
  λ a b, decide (String.leb a b = true).

(** [sort.Strings].  The library sorts in place with an unstable sort; two
    equal strings being the same string, the outcome is the one sorted
    arrangement of the input, which a merge sort computes as well. *)
Definition Strings (x : list string) : list string := merge_sort string_le x.

End sort.

(** ** Package [handlers]: the textarea parser *)
Module handlers.

(** [var escapedBacktick = strings.Join([]string{`\`, "`"}, "")] *)
Definition escapedBacktick : string := "\`".

(** The variables the loop of [parseKeyValuePairs] updates. *)
Record locals : Type := Locals {
  result : gmap string string;
  multilineKey : string;
  multilineValue : string           (* the strings.Builder *)
}.

(** The common tail of both block branches: cut an unescaped closing
    backtick, unescape, and report whether the block ends here. *)
Definition cutBlockLine (line : string) : string * bool :=
  let '(line, isEndOfBlock) :=
    if negb (strings.HasSuffix line escapedBacktick)
    then strings.CutSuffix line "`"
    else (line, false) in
  (strings.ReplaceAll line escapedBacktick "`", isEndOfBlock).

(** One iteration of [for i, line := range lines]; [Err] is the early
    [return nil, err]. *)
Definition loopBody (i : nat) (line : string) (st : locals) : Result locals :=
  if (0 <? String.length (multilineKey st))%nat then
    (* inside backticked block *)
    let '(line, isEndOfBlock) := cutBlockLine line in
    let buf := multilineValue st +:+ String "010"%char EmptyString +:+ line in
    if isEndOfBlock
    then Ok (Locals (<[multilineKey st := buf]> (result st)) "" "")
    else Ok (Locals (result st) (multilineKey st) buf)
  else
    match strings.SplitN2 line "="%char with
    | [key; value] =>
        let '(part, ok) := strings.CutPrefix value "`" in
        if ok then
          (* backticked block starts *)
          let '(part, isEndOfBlock) := cutBlockLine part in
          let buf := multilineValue st +:+ part in
          if isEndOfBlock
          then Ok (Locals (<[key := buf]> (result st)) "" "")
          else Ok (Locals (result st) key buf)
        else
          (* oneline value *)
          Ok (Locals (<[key := value]> (result st)) (multilineKey st)
                     (multilineValue st))
    | _ => Err (errorString ("Missing '=' at line: " +:+ itoa i))
    end.

Fixpoint rangeLines (i : nat) (lines : list string) (st : locals)
  : Result locals :=
  match lines with
  | [] => Ok st
  | line :: rest =>
      match loopBody i line st with
      | Ok st' => rangeLines (S i) rest st'
      | Err e => Err e
      end
  end.

Definition parseKeyValuePairs (data : string) : Result (gmap string string) :=
  let lines := strings.Split data "010"%char in
  match lines with
  | [EmptyString] => Err (errorString "empty")
  | _ =>
      match rangeLines 0 lines (Locals ∅ "" "") with
      | Err e => Err e
      | Ok st =>
          if negb (String.length (multilineKey st) =? 0)%nat
          then Err (errorString "Backticked block is not closed")
          else Ok (result st)
      end
  end.

(** [http.ResponseWriter], as far as [renderDatalist] writes to it *)
Record ResponseWriter : Type := {
  Header : gmap string string;
  Body : string
}.

Definition dquote : string := String "034"%char EmptyString.

(** [builder.WriteString(s)] *)
Definition WriteString (builder s : string) : string := builder +:+ s.

(** the text [renderDatalist] builds *)
Definition datalistMarkup (id : string) (options : list string) : string :=
  let builder := EmptyString in
  let builder := WriteString builder ("<datalist id=" +:+ dquote) in
  let builder := WriteString builder (html.EscapeString id) in
  let builder := WriteString builder (dquote +:+ ">") in
  let builder :=
    foldl (λ builder option,
             let builder := WriteString builder ("<option value=" +:+ dquote) in
             let builder := WriteString builder (html.EscapeString option) in
             WriteString builder (dquote +:+ "></option>"))
          builder options in
  WriteString builder "</datalist>".

Definition renderDatalist (w : ResponseWriter) (id : string) (options : list string)
  : ResponseWriter :=
  {| Header := <["Content-Type" := "text/html; charset=utf-8"]> (Header w);
     Body := Body w +:+ datalistMarkup id options |}.

End handlers.

(** ** The parser as the specification words it

    A two-state automaton (Normal, InsideQuotedBlock) over the lines of the
    input, with one accumulator; it is compared with [parseKeyValuePairs]
    below. *)
Module ValueParser.

Inductive FormatError : Type :=
| EmptyInput
| MissingSeparator (line : nat)
| UnterminatedBlock.

Inductive mode : Type :=
| Normal
| InsideQuotedBlock (key : string) (acc : string).

(** backslash+backtick is rendered as a literal backtick *)
Fixpoint unescape (s : string) : string :=
  match s with
  | EmptyString => EmptyString
  | String c r =>
      match r with
      | String c' r' =>
          if Ascii.eqb c "\"%char && Ascii.eqb c' "`"%char
          then String "`"%char (unescape r')
          else String c (unescape r)
      | EmptyString => String c EmptyString
      end
  end.

(** the line ends with a backtick that is not escaped *)
Definition closesBlock (line : string) : bool :=
  strings.HasSuffix line "`" && negb (strings.HasSuffix line "\`").

Definition stripLast (line : string) : string :=
  strings.take (String.length line - 1) line.

(** the text a line contributes to the block, and whether it closes it *)
Definition blockText (line : string) : string :=
  unescape (if closesBlock line then stripLast line else line).

(** a value that begins with a backtick opens a block with the rest *)
Definition opensBlock (value : string) : option string :=
  match value with
  | String c body => if Ascii.eqb c "`"%char then Some body else None
  | EmptyString => None
  end.

Definition step (i : nat) (line : string) (st : mode * gmap string string)
  : FormatError + mode * gmap string string :=
  let '(m, mapping) := st in
  match m with
  | InsideQuotedBlock key acc =>
      let acc' := acc +:+ String "010"%char EmptyString +:+ blockText line in
      if closesBlock line then inr (Normal, <[key := acc']> mapping)
      else inr (InsideQuotedBlock key acc', mapping)
  | Normal =>
      match strings.Cut line "="%char with
      | None => inl (MissingSeparator i)
      | Some (key, value) =>
          match opensBlock value with
          | Some body =>
              if closesBlock body
              then inr (Normal, <[key := blockText body]> mapping)
              else inr (InsideQuotedBlock key (blockText body), mapping)
          | None => inr (Normal, <[key := value]> mapping)
          end
      end
  end.

Fixpoint run (i : nat) (lines : list string) (st : mode * gmap string string)
  : FormatError + mode * gmap string string :=
  match lines with
  | [] => inr st
  | line :: rest =>
      match step i line st with
      | inr st' => run (S i) rest st'
      | inl e => inl e
      end
  end.

Definition parse (text : string) : FormatError + gmap string string :=
  if String.eqb text "" then inl EmptyInput
  else
    match run 0 (strings.Split text "010"%char) (Normal, ∅) with
    | inl e => inl e
    | inr (Normal, mapping) => inr mapping
    | inr (InsideQuotedBlock _ _, _) => inl UnterminatedBlock
    end.

(** the message [parseKeyValuePairs] gives for each kind of failure *)
Definition message (e : FormatError) : error :=
  match e with
  | EmptyInput => errorString "empty"
  | MissingSeparator i => errorString ("Missing '=' at line: " +:+ itoa i)
  | UnterminatedBlock => errorString "Backticked block is not closed"
  end.

Definition toResult (r : FormatError + gmap string string)
  : Result (gmap string string) :=
  match r with
  | inl e => Err (message e)
  | inr mapping => Ok mapping
  end.

End ValueParser.

(** ** Package [sealedsecret] *)
Module sealedsecret.

(** *** Collaborators: the cluster clients *)

(** [corev1.Secret], as far as the code reads it *)
Record Secret : Type := { Data : gmap string (list Byte.byte) }.

(** [unstructured.Unstructured], as far as the code reads it *)
Record Unstructured : Type := { GetAnnotations : gmap string string }.

(** [k8sClient.CoreV1().Secrets(namespace).Get(ctx, name, ...)]: the typed
    client returns a non-nil object together with the error. *)
Record K8sClient : Type := {
  SecretsGet : string → string → Secret * option error
}.

(** [dynamicClient.Resource(sealedSecretGVR).Namespace(namespace).Get(...)] *)
Record DynamicClient : Type := {
  SealedSecretsGet : string → string → Result Unstructured
}.

Record SealedSecretService : Type := {
  sealedSecretControllerName : string;
  sealedSecretControllerNamespace : string;
  clusterDomain : string;
  k8sClient : K8sClient;
  dynamicClient : DynamicClient;
  annotationsToPreserve : gset string      (* map[string]struct{} *)
}.

(** [apierrors.reasonAndCodeForError]: the reason and the code of the
    status the error carries, looked for through the wrapping; an error
    that carries none has the unknown reason and the code 0. *)
Fixpoint ReasonForError (err : error) : string :=
  match err with
  | StatusError reason _ _ => reason
  | wrapError _ cause => ReasonForError cause
  | errorString _ => ""
  end.

Fixpoint CodeForError (err : error) : nat :=
  match err with
  | StatusError _ code _ => code
  | wrapError _ cause => CodeForError cause
  | errorString _ => 0
  end.

(** the table [knownReasons] of [apierrors] *)
Definition knownReasons : list string :=
  [ "Unauthorized"; "Forbidden"; "NotFound"; "AlreadyExists"; "Conflict";
    "Gone"; "Invalid"; "ServerTimeout"; "Timeout"; "TooManyRequests";
    "BadRequest"; "MethodNotAllowed"; "NotAcceptable"; "RequestEntityTooLarge";
    "UnsupportedMediaType"; "InternalError"; "Expired"; "ServiceUnavailable" ].

(** [apierrors.IsNotFound]: the reason is not-found, or the reason is none
    of the known ones and the code is 404; a nil error is not a not-found
    error. *)
Definition IsNotFound (err : option error) : bool :=
  match err with
  | Some e =>
      String.eqb (ReasonForError e) "NotFound"
      || (negb (bool_decide (ReasonForError e ∈ knownReasons))
          && (CodeForError e =? 404)%nat)
  | None => false
  end.

(** *** [model.CreateOpts] and [model.SealedSecret]

    The record is parametric in how an annotation map is held: by
    reference while it is assembled, by value once it is marshalled. *)
Record CreateOpts : Type := {
  Scope : string;
  Namespace : string;
  SecretName : string;
  Values : gmap string string
}.

Record Metadata (A : Type) : Type := {
  Name : string;
  MetaNamespace : string;
  Annotations : A
}.
Arguments Name {A} _.
Arguments MetaNamespace {A} _.
Arguments Annotations {A} _.

Record Template (A : Type) : Type := { TemplateMetadata : Metadata A }.
Arguments TemplateMetadata {A} _.

Record SealedSecretSpec (A : Type) : Type := {
  EncryptedData : gmap string string;
  SpecTemplate : Template A
}.
Arguments EncryptedData {A} _.
Arguments SpecTemplate {A} _.

Record SealedSecret (A : Type) : Type := {
  APIVersion : string;
  Kind : string;
  SealedMetadata : Metadata A;
  Spec : SealedSecretSpec A
}.
Arguments APIVersion {A} _.
Arguments Kind {A} _.
Arguments SealedMetadata {A} _.
Arguments Spec {A} _.

(** *** The store of annotation maps

    A Go map is a reference.  [CreateSealedSecret] puts [scopeAnnotations]
    into the record and keeps writing to a map made from it, so these maps
    live in a store and are named by their address.  The other maps of the
    package are written by one loop and only read afterwards; they are
    plain values. *)
Abbreviation ref := nat (only parsing).
Abbreviation heap := (list (gmap string string)) (only parsing).

Definition alloc (m : gmap string string) (h : heap) : ref * heap :=
  (length h, (h ++ [m])%list).

Definition deref (h : heap) (r : ref) : gmap string string :=
  default ∅ (h !! r).

(** [m[key] = value] on the map at address [r] *)
Definition mapassign (r : ref) (key value : string) (h : heap) : heap :=
  alter (insert key value) r h.

Definition snapshotMetadata (h : heap) (m : Metadata ref)
  : Metadata (gmap string string) :=
  {| Name := Name m; MetaNamespace := MetaNamespace m;
     Annotations := deref h (Annotations m) |}.

(** the record as [yaml.Marshal] reads it *)
Definition snapshot (h : heap) (s : SealedSecret ref)
  : SealedSecret (gmap string string) :=
  {| APIVersion := APIVersion s;
     Kind := Kind s;
     SealedMetadata := snapshotMetadata h (SealedMetadata s);
     Spec := {| EncryptedData := EncryptedData (Spec s);
                SpecTemplate :=
                  {| TemplateMetadata :=
                       snapshotMetadata h
                         (TemplateMetadata (SpecTemplate (Spec s))) |} |} |}.

(** *** Pure helpers *)

Definition copyStringMap (source : ref) (h : heap) : ref * heap :=
  let '(results, h) := alloc ∅ h in
  (results,
   map_fold (λ key value h, mapassign results key value h) h (deref h source)).

Definition getScopeAnnotations (scope : string) (h : heap) : ref * heap :=
  if String.eqb scope "cluster"
  then alloc {[ "sealedsecrets.bitnami.com/cluster-wide" := "true" ]} h
  else if String.eqb scope "namespace"
  then alloc {[ "sealedsecrets.bitnami.com/namespace-wide" := "true" ]} h
  else alloc ∅ h.

Definition isScopeAnnotation (annotationKey : string) : bool :=
  String.eqb annotationKey "sealedsecrets.bitnami.com/cluster-wide"
  || String.eqb annotationKey "sealedsecrets.bitnami.com/namespace-wide".

Definition decodeSecret (secretData : gmap string (list Byte.byte))
  : gmap string string :=
  map_fold (λ key value data, <[key := string_of_list_byte value]> data)
           ∅ secretData.

Definition getSecretData (s : SealedSecretService) (namespace secretName : string)
  : Result (gmap string string) :=
  let '(secret, err) := SecretsGet (k8sClient s) namespace secretName in
  if IsNotFound err then Ok ∅
  else Ok (decodeSecret (Data secret)).

Definition getSealedSecretAnnotations (s : SealedSecretService)
    (namespace secretName : string) : Result (gmap string string) :=
  if (size (annotationsToPreserve s) =? 0)%nat then Ok ∅
  else
    match SealedSecretsGet (dynamicClient s) namespace secretName with
    | Err err => if IsNotFound (Some err) then Ok ∅ else Err err
    | Ok sealedSecret =>
        let annotations := GetAnnotations sealedSecret in
        if (size annotations =? 0)%nat then Ok ∅
        else
          Ok (set_fold
                (λ key preserved,
                   match annotations !! key with
                   | Some value => <[key := value]> preserved
                   | None => preserved
                   end)
                ∅ (annotationsToPreserve s))
    end.

(** [for key, value := range source { dst[key] = value }] *)
Definition rangeAssign (source dst : gmap string string) : gmap string string :=
  map_fold (λ key value dst, <[key := value]> dst) dst source.

(** *** Sealing *)
Section sealing.

(** An RSA public key, and the random bytes one encryption draws. *)
Variables PublicKey Rand : Type.

(** [hybridEncrypt(pubKey, value, label)], defined in a file of the
    package that is not at hand; the randomness it reads from
    [crypto/rand] is an argument here. *)
Variable hybridEncrypt : Rand → PublicKey → string → string → Result string.

(** [s.getPublicKey(ctx)], likewise. *)
Variable getPublicKey : SealedSecretService → Result PublicKey.

(** [yaml.Marshal] *)
Variable yamlMarshal : SealedSecret (gmap string string) → Result string.

(** What the Go runtime decides: the order in which [range] visits a
    map, and the random bytes of the i-th encryption. *)
Record Runtime : Type := {
  rangeOrder : gmap string string → list (string * string);
  entropy : nat → Rand
}.

(** every entry is visited exactly once *)
Definition fairRange (rt : Runtime) : Prop :=
  ∀ m, rangeOrder rt m ≡ₚ map_to_list m.

Record encryptRequest : Type := {
  pubKey : PublicKey;
  secretName : string;
  namespace : string;
  scope : string;
  values : gmap string string
}.

Definition getLabel (s : SealedSecretService) (req : encryptRequest) : string :=
  if String.eqb (scope req) "cluster" then ""
  else if String.eqb (scope req) "namespace" then namespace req
  else namespace req +:+ "/" +:+ secretName req.

(** the loop of [encryptValues] from its i-th iteration on *)
Fixpoint encryptLoop (rt : Runtime) (s : SealedSecretService)
    (req : encryptRequest) (i : nat) (todo : list (string * string))
    (encryptedData : gmap string string) : Result (gmap string string) :=
  match todo with
  | [] => Ok encryptedData
  | (key, value) :: rest =>
      match hybridEncrypt (entropy rt i) (pubKey req) value (getLabel s req) with
      | Err err => Err (Errorf_w "failed to encrypt value" err)
      | Ok enc => encryptLoop rt s req (S i) rest (<[key := enc]> encryptedData)
      end
  end.

Definition encryptValues (rt : Runtime) (s : SealedSecretService)
    (req : encryptRequest) : Result (gmap string string) :=
  encryptLoop rt s req 0 (rangeOrder rt (values req)) ∅.

(** the values [CreateSealedSecret] encrypts: the stored ones, then the
    submitted ones written over them *)
Definition valuesToEncrypt (existingData newValues : gmap string string)
  : gmap string string :=
  rangeAssign newValues (rangeAssign existingData ∅).

(** [for key, value := range preservedAnnotations { ... }] *)
Definition overlayPreserved (sealedSecretAnnotations : ref)
    (preservedAnnotations : gmap string string) (h : heap) : heap :=
  map_fold
    (λ key value h,
       if isScopeAnnotation key then h
       else mapassign sealedSecretAnnotations key value h)
    h preservedAnnotations.

(** [CreateSealedSecret] up to the record it hands to [yaml.Marshal] *)
Definition assembleSealedSecret (rt : Runtime) (s : SealedSecretService)
    (opts : CreateOpts) (h : heap) : Result (SealedSecret ref * heap) :=
  match getSecretData s (Namespace opts) (SecretName opts) with
  | Err err => Err (Errorf_w "failed to get existing secret data" err)
  | Ok existingData =>
  match getPublicKey s with
  | Err err => Err (Errorf_w "failed to get public key" err)
  | Ok pubKey =>
  let req := {| pubKey := pubKey;
                secretName := SecretName opts;
                namespace := Namespace opts;
                values := valuesToEncrypt existingData (Values opts);
                scope := Scope opts |} in
  match encryptValues rt s req with
  | Err err => Err err
  | Ok encryptedData =>
  let '(scopeAnnotations, h) := getScopeAnnotations (scope req) h in
  let '(sealedSecretAnnotations, h) := copyStringMap scopeAnnotations h in
  match getSealedSecretAnnotations s (Namespace opts) (SecretName opts) with
  | Err err =>
      Err (Errorf_w "failed to get existing sealed-secret annotations" err)
  | Ok preservedAnnotations =>
  let h := overlayPreserved sealedSecretAnnotations preservedAnnotations h in
  Ok ({| APIVersion := "bitnami.com/v1alpha1";
         Kind := "SealedSecret";
         SealedMetadata :=
           {| Name := secretName req;
              MetaNamespace := namespace req;
              Annotations := sealedSecretAnnotations |};
         Spec :=
           {| EncryptedData := encryptedData;
              SpecTemplate :=
                {| TemplateMetadata :=
                     {| Name := secretName req;
                        MetaNamespace := namespace req;
                        Annotations := scopeAnnotations |} |} |} |}, h)
  end end end end.

(** the record [yaml.Marshal] receives *)
Definition sealedRecord (rt : Runtime) (s : SealedSecretService)
    (opts : CreateOpts) (h : heap) : Result (SealedSecret (gmap string string)) :=
  match assembleSealedSecret rt s opts h with
  | Err err => Err err
  | Ok (sealedSecret, h') => Ok (snapshot h' sealedSecret)
  end.

Definition CreateSealedSecret (rt : Runtime) (s : SealedSecretService)
    (opts : CreateOpts) (h : heap) : Result string :=
  match sealedRecord rt s opts h with
  | Err err => Err err
  | Ok doc =>
      match yamlMarshal doc with
      | Err err => Err (Errorf_w "failed to marshal sealed secret to YAML" err)
      | Ok yamlData => Ok yamlData
      end
  end.

End sealing.

Arguments rangeOrder {Rand} _ _.
Arguments entropy {Rand} _ _.
Arguments fairRange {Rand} rt.
Arguments pubKey {PublicKey} _.
Arguments secretName {PublicKey} _.
Arguments namespace {PublicKey} _.
Arguments scope {PublicKey} _.
Arguments values {PublicKey} _.
Arguments getLabel {PublicKey} s req.
Arguments encryptLoop {PublicKey Rand} hybridEncrypt rt s req i todo encryptedData.
Arguments encryptValues {PublicKey Rand} hybridEncrypt rt s req.
Arguments assembleSealedSecret {PublicKey Rand} hybridEncrypt getPublicKey rt s opts h.
Arguments sealedRecord {PublicKey Rand} hybridEncrypt getPublicKey rt s opts h.
Arguments CreateSealedSecret {PublicKey Rand} hybridEncrypt getPublicKey yamlMarshal
  rt s opts h.

(** *** The allow-list *)
Section allowlist.

Variables TrimFunc_IsSpace TrimRightFunc_IsSpace : string → string.

Definition toStringSet (values : list string) : gset string :=
  foldl (λ (results : gset string) value,
           let value := strings.TrimSpace TrimFunc_IsSpace TrimRightFunc_IsSpace
                          value in
           if String.eqb value "" then results
           else {[ value ]} ∪ results)
        ∅ values.

End allowlist.

(** *** Listing namespaces and secrets *)

(** [k8sClient.CoreV1().Namespaces().List] and
    [k8sClient.CoreV1().Secrets(namespace).List]: the names of the items of
    the list that is returned, and the error *)
Record CoreV1Lists : Type := {
  NamespacesList : list string * option error;
  SecretsList : string → list string * option error
}.

Definition listNamespaces (c : CoreV1Lists) : Result (list string) :=
  let '(namespaces, err) := NamespacesList c in
  match err with
  | Some err => Err err
  | None => Ok (sort.Strings namespaces)
  end.

Definition listSecretNames (c : CoreV1Lists) (namespace : string)
  : Result (list string) :=
  if String.eqb namespace "" then Ok []
  else
    let '(secrets, err) := SecretsList c namespace in
    if IsNotFound err then Ok []
    else match err with
         | Some err => Err err
         | None => Ok (sort.Strings secrets)
         end.

Definition ListNamespaces (c : CoreV1Lists) : Result (list string) :=
  listNamespaces c.

Definition ListSecretNames (c : CoreV1Lists) (namespace : string)
  : Result (list string) :=
  listSecretNames c namespace.

End sealedsecret.

(** * Definitions for the statements *)

Import handlers sealedsecret.

(** ** The parser and the automaton side by side *)

(** The Go loop tells that it is inside a block by [multilineKey] being
    non-empty.  The two runs stay in step as long as no block is opened
    under the empty key. *)
Definition sim (st : locals) (sp : ValueParser.mode * gmap string string) : Prop :=
  match sp with
  | (ValueParser.Normal, mapping) => st = Locals mapping "" ""
  | (ValueParser.InsideQuotedBlock key acc, mapping) =>
      st = Locals mapping key acc ∧ key ≠ ""
  end.

(** a line that starts a block under the empty key *)
Definition opensEmptyKeyBlock (line : string) : bool :=
  strings.HasPrefix line "=`".

Definition LF : string := String "010"%char EmptyString.

(** no key the loop holds, stored or pending, contains a separator *)
Definition keysClean (st : locals) : Prop :=
  (∀ key, is_Some (result st !! key) → strings.ContainsByte key "="%char = false)
  ∧ strings.ContainsByte (multilineKey st) "="%char = false.

(** the end of [parseKeyValuePairs], after the loop *)
Definition finishParse (r : Result locals) : Result (gmap string string) :=
  match r with
  | Err e => Err e
  | Ok st =>
      if negb (String.length (multilineKey st) =? 0)%nat
      then Err (errorString "Backticked block is not closed")
      else Ok (result st)
  end.

(** the variables of the loop after a line [key=value] read outside a
    block: the entry is stored, or a block is opened under the key *)
Definition afterKeyValueLine (key value : string) (st : locals) : locals :=
  match value with
  | String c body =>
      if Ascii.eqb c "`"%char then
        let '(part, isEndOfBlock) := cutBlockLine body in
        if isEndOfBlock
        then Locals (<[key := multilineValue st +:+ part]> (result st)) "" ""
        else Locals (result st) key (multilineValue st +:+ part)
      else Locals (<[key := value]> (result st)) "" (multilineValue st)
  | EmptyString => Locals (<[key := value]> (result st)) "" (multilineValue st)
  end.

(** the error for a line without separator *)
Definition missingSeparator (i : nat) : error :=
  errorString ("Missing '=' at line: " +:+ itoa i).

(** ** The pipeline *)

(** the annotation set [getScopeAnnotations] builds for a scope *)
Definition scopeAnnotationSet (scope : string) : gmap string string :=
  let '(r, h) := getScopeAnnotations scope [] in deref h r.

(** the annotations stored on the existing sealed secret, none when the
    read fails *)
Definition storedAnnotations (s : SealedSecretService)
    (namespace secretName : string)
  : gmap string string :=
  match SealedSecretsGet (dynamicClient s) namespace secretName with
  | Ok sealedSecret => GetAnnotations sealedSecret
  | Err _ => ∅
  end.

(** the request [CreateSealedSecret] builds once it has the key *)
Definition requestOf {PublicKey : Type} (opts : CreateOpts)
    (existingData : gmap string string) (pk : PublicKey)
  : encryptRequest PublicKey :=
  {| pubKey := pk;
     secretName := SecretName opts;
     namespace := Namespace opts;
     values := valuesToEncrypt existingData (Values opts);
     scope := Scope opts |}.

(** ** A concrete cluster

    Stand-ins for the collaborators, on which the statements below are
    evaluated: a key source that always answers, an encryption that fails on
    one value, a renderer, and a runtime that ranges in the order of the
    map's own listing. *)
Definition stubEncrypt (_ : unit) (_ : unit) (value label : string) : Result string :=
  if String.eqb value "unsealable"
  then Err (errorString "rsa: message too long")
  else Ok ("sealed(" +:+ label +:+ "," +:+ value +:+ ")").

Definition stubPublicKey (_ : SealedSecretService) : Result unit := Ok tt.

Definition stubMarshal (doc : SealedSecret (gmap string string)) : Result string :=
  Ok (Kind doc +:+ "/" +:+ MetaNamespace (SealedMetadata doc)
      +:+ "/" +:+ Name (SealedMetadata doc)).

Definition stubRuntime : Runtime unit :=
  {| rangeOrder := map_to_list; entropy := λ _, tt |}.

Definition serviceWith (secretAnswer : Secret * option error)
    (sealedSecretAnswer : Result Unstructured) (allowlist : gset string)
  : SealedSecretService :=
  {| sealedSecretControllerName := "sealed-secrets-controller";
     sealedSecretControllerNamespace := "kube-system";
     clusterDomain := "cluster.local";
     k8sClient := {| SecretsGet := λ _ _, secretAnswer |};
     dynamicClient := {| SealedSecretsGet := λ _ _, sealedSecretAnswer |};
     annotationsToPreserve := allowlist |}.

Definition noSecret : Secret * option error :=
  ({| Data := ∅ |}, Some (StatusError "NotFound" 404 "secrets not found")).

Definition noSealedSecret : Result Unstructured :=
  Err (StatusError "NotFound" 404 "sealedsecrets.bitnami.com not found").

(** a cluster with neither the secret nor the sealed secret *)
Definition emptyCluster : SealedSecretService :=
  serviceWith noSecret noSealedSecret ∅.

(** a sealed secret that was namespace-wide and carries an owner, both keys
    being on the allow-list *)
Definition ownedCluster : SealedSecretService :=
  serviceWith noSecret
    (Ok {| GetAnnotations :=
             {[ "sealedsecrets.bitnami.com/namespace-wide" := "true";
                "owner" := "team-x" ]} |})
    {[ "sealedsecrets.bitnami.com/namespace-wide"; "owner" ]}.

(** a cluster whose secret read fails for another reason than absence; the
    typed client hands back an empty object with the error *)
Definition flakyCluster : SealedSecretService :=
  serviceWith ({| Data := ∅ |},
               Some (StatusError "InternalError" 500 "etcdserver: request timed out"))
              noSealedSecret ∅.

Definition strictRequest (vals : gmap string string) : CreateOpts :=
  {| Scope := "strict"; Namespace := "prod"; SecretName := "db"; Values := vals |}.

Definition labelRequest (sc ns name : string) : encryptRequest unit :=
  {| pubKey := tt; secretName := name; namespace := ns; scope := sc; values := ∅ |}.

(** the record sealed for the owned sealed secret under strict scope *)
Definition ownedRecord : SealedSecret (gmap string string) :=
  {| APIVersion := "bitnami.com/v1alpha1";
     Kind := "SealedSecret";
     SealedMetadata :=
       {| Name := "db"; MetaNamespace := "prod";
          Annotations := {[ "owner" := "team-x" ]} |};
     Spec :=
       {| EncryptedData := {[ "a" := "sealed(prod/db,1)" ]};
          SpecTemplate :=
            {| TemplateMetadata :=
                 {| Name := "db"; MetaNamespace := "prod"; Annotations := ∅ |} |} |} |}.

Definition namespaceRequest (vals : gmap string string) : CreateOpts :=
  {| Scope := "namespace"; Namespace := "prod"; SecretName := "db"; Values := vals |}.

(** the record sealed for the owned sealed secret under namespace scope *)
Definition ownedNamespaceRecord : SealedSecret (gmap string string) :=
  {| APIVersion := "bitnami.com/v1alpha1";
     Kind := "SealedSecret";
     SealedMetadata :=
       {| Name := "db"; MetaNamespace := "prod";
          Annotations :=
            {[ "sealedsecrets.bitnami.com/namespace-wide" := "true";
               "owner" := "team-x" ]} |};
     Spec :=
       {| EncryptedData := {[ "a" := "sealed(prod,1)" ]};
          SpecTemplate :=
            {| TemplateMetadata :=
                 {| Name := "db"; MetaNamespace := "prod";
                    Annotations :=
                      {[ "sealedsecrets.bitnami.com/namespace-wide" := "true" ]} |} |} |} |}.

(** a cluster that refuses the read of the sealed secret *)
Definition forbiddenCluster : SealedSecretService :=
  serviceWith noSecret
    (Err (StatusError "Forbidden" 403 "sealedsecrets.bitnami.com is forbidden"))
    {[ "owner" ]}.

(** a cluster that holds the secret with one stored value *)
Definition storedCluster : SealedSecretService :=
  serviceWith ({| Data := {[ "old" := [Byte.x70; Byte.x77] ]} |}, None)
              noSealedSecret ∅.

(** a cluster that holds the secret with the values 1 and 2 under a and b *)
Definition mergeCluster : SealedSecretService :=
  serviceWith ({| Data := {[ "a" := [Byte.x31]; "b" := [Byte.x32] ]} |}, None)
              noSealedSecret ∅.

(** the record sealed on that cluster when 3 and 4 are submitted under b
    and c *)
Definition mergeRecord : SealedSecret (gmap string string) :=
  {| APIVersion := "bitnami.com/v1alpha1";
     Kind := "SealedSecret";
     SealedMetadata := {| Name := "db"; MetaNamespace := "prod"; Annotations := ∅ |};
     Spec :=
       {| EncryptedData :=
            {[ "a" := "sealed(prod/db,1)"; "b" := "sealed(prod/db,3)";
               "c" := "sealed(prod/db,4)" ]};
          SpecTemplate :=
            {| TemplateMetadata :=
                 {| Name := "db"; MetaNamespace := "prod"; Annotations := ∅ |} |} |} |}.

(** the record sealed on that cluster when one new value is submitted *)
Definition storedRecord : SealedSecret (gmap string string) :=
  {| APIVersion := "bitnami.com/v1alpha1";
     Kind := "SealedSecret";
     SealedMetadata := {| Name := "db"; MetaNamespace := "prod"; Annotations := ∅ |};
     Spec :=
       {| EncryptedData :=
            {[ "a" := "sealed(prod/db,1)"; "old" := "sealed(prod/db,pw)" ]};
          SpecTemplate :=
            {| TemplateMetadata :=
                 {| Name := "db"; MetaNamespace := "prod"; Annotations := ∅ |} |} |} |}.

(** a cluster with two namespaces, and secrets in one of them *)
Definition listedCluster : CoreV1Lists :=
  {| NamespacesList := (["prod"; "dev"], None);
     SecretsList := λ namespace,
       if String.eqb namespace "prod" then (["tls"; "db"], None)
       else if String.eqb namespace "ghost"
       then ([], Some (StatusError "" 404 "the server could not find the requested resource"))
       else ([], Some (StatusError "Forbidden" 403 "secrets is forbidden")) |}.

(** * Properties *)

(** ** Go strings *)
Section string_facts.

Lemma append_nil_l (s : string) : "" +:+ s = s.
Proof. reflexivity. Qed.

Lemma append_cons (c : ascii) (s t : string) :
  String c s +:+ t = String c (s +:+ t).
Proof. reflexivity. Qed.

Lemma replaceFrom_empty fuel old new :
  old ≠ "" → strings.replaceFrom fuel "" old new = "".
Proof.
  intros Hold. destruct fuel as [|fuel]; [done|].
  destruct old as [|c old]; [done|]. reflexivity.
Qed.

(** [ReplaceAll] with the escaped backtick is the unescaping of the
    specification. *)
Lemma replaceFrom_unescape fuel s :
  String.length s < fuel →
  strings.replaceFrom fuel s "\`" "`" = ValueParser.unescape s.
Proof.
  revert s. induction fuel as [|fuel IH]; intros s Hlen; [lia|].
  destruct s as [|c [|c' r]].
  - reflexivity.
  - cbn. by rewrite replaceFrom_empty.
  - cbn [strings.replaceFrom ValueParser.unescape].
    unfold strings.HasPrefix. cbn [String.length strings.take Nat.leb andb].
    cbn [String.eqb].
    destruct (Ascii.eqb_spec c "\"%char) as [->|Hc];
      [destruct (Ascii.eqb_spec c' "`"%char) as [->|Hc']|]; cbn.
    + f_equal. apply IH. cbn in Hlen. lia.
    + f_equal. apply IH. cbn in Hlen |- *. lia.
    + f_equal. apply IH. cbn in Hlen |- *. lia.
Qed.

Lemma ReplaceAll_unescape s :
  strings.ReplaceAll s "\`" "`" = ValueParser.unescape s.
Proof. apply replaceFrom_unescape. lia. Qed.

(** what the two block branches of the loop compute from a line *)
Lemma cutBlockLine_spec line :
  cutBlockLine line = (ValueParser.blockText line, ValueParser.closesBlock line).
Proof.
  unfold cutBlockLine, ValueParser.blockText, ValueParser.closesBlock,
    ValueParser.stripLast, escapedBacktick, strings.CutSuffix.
  destruct (strings.HasSuffix line "\`"); cbn [negb andb].
  - rewrite andb_false_r. by rewrite ReplaceAll_unescape.
  - rewrite andb_true_r.
    destruct (strings.HasSuffix line "`"); by rewrite ReplaceAll_unescape.
Qed.

Lemma Cut_app (key value : string) (sep : ascii) :
  strings.ContainsByte key sep = false →
  strings.Cut (key +:+ String sep value) sep = Some (key, value).
Proof.
  induction key as [|c key IH]; intros Hc.
  - rewrite append_nil_l. cbn. by rewrite Ascii.eqb_refl.
  - rewrite append_cons. cbn in Hc |- *.
    apply orb_false_elim in Hc as [-> Hc]. by rewrite IH.
Qed.

(** [Cut] splits at the first separator and loses nothing. *)
Lemma Cut_Some s sep before after :
  strings.Cut s sep = Some (before, after) →
  s = before +:+ String sep after ∧ strings.ContainsByte before sep = false.
Proof.
  revert before. induction s as [|c s IH]; cbn; intros before; [done|].
  destruct (Ascii.eqb_spec c sep) as [->|Hne].
  - intros [= <- <-]. done.
  - destruct (strings.Cut s sep) as [[b a]|]; [|done].
    intros [= <- <-]. destruct (IH b eq_refl) as [-> Hb].
    rewrite append_cons. cbn.
    split; [done|]. rewrite Hb, orb_false_r. by apply Ascii.eqb_neq.
Qed.

Lemma CutPrefix_backtick value :
  strings.CutPrefix value "`" =
    match value with
    | String c body => if Ascii.eqb c "`"%char then (body, true) else (value, false)
    | EmptyString => (value, false)
    end.
Proof.
  destruct value as [|c body]; [done|].
  unfold strings.CutPrefix, strings.HasPrefix. cbn.
  destruct (Ascii.eqb c "`"%char); done.
Qed.

End string_facts.

(** ** The parser against the automaton of the specification *)
Section parser_refinement.

Lemma Cut_empty_key line value body :
  strings.Cut line "="%char = Some ("", value) →
  ValueParser.opensBlock value = Some body →
  opensEmptyKeyBlock line = true.
Proof.
  intros Hcut Hopen. apply Cut_Some in Hcut as [-> _].
  destruct value as [|c value]; [done|]. cbn in Hopen.
  destruct (Ascii.eqb_spec c "`"%char) as [->|]; [|done].
  reflexivity.
Qed.

Lemma loopBody_step i line st sp :
  sim st sp →
  opensEmptyKeyBlock line = false →
  match loopBody i line st, ValueParser.step i line sp with
  | Ok st', inr sp' => sim st' sp'
  | Err e, inl fe => e = ValueParser.message fe
  | _, _ => False
  end.
Proof.
  destruct sp as [[|key acc] mapping]; cbn [sim].
  - intros -> Hline. unfold loopBody, strings.SplitN2. cbn.
    destruct (strings.Cut line "="%char) as [[key value]|] eqn:Hcut; [|done].
    rewrite CutPrefix_backtick. unfold ValueParser.opensBlock.
    destruct value as [|c body]; [done|].
    destruct (Ascii.eqb c "`"%char) eqn:Hc; [|done].
    rewrite cutBlockLine_spec, append_nil_l.
    destruct (ValueParser.closesBlock body); cbn; [done|].
    split; [done|]. intros ->.
    rewrite (Cut_empty_key line _ body Hcut) in Hline; [done|].
    cbn. by rewrite Hc.
  - intros [-> Hkey] _. unfold loopBody. cbn.
    destruct key as [|c key]; [done|]. cbn.
    rewrite cutBlockLine_spec.
    destruct (ValueParser.closesBlock line); cbn; done.
Qed.

Lemma rangeLines_run lines : ∀ i st sp,
  sim st sp →
  Forall (λ line, opensEmptyKeyBlock line = false) lines →
  match rangeLines i lines st, ValueParser.run i lines sp with
  | Ok st', inr sp' => sim st' sp'
  | Err e, inl fe => e = ValueParser.message fe
  | _, _ => False
  end.
Proof.
  induction lines as [|line lines IH]; intros i st sp Hsim Hall; cbn.
  - done.
  - inversion Hall as [|? ? Hline Hrest]; subst.
    pose proof (loopBody_step i line st sp Hsim Hline) as Hstep.
    destruct (loopBody i line st) as [st'|e],
             (ValueParser.step i line sp) as [fe|sp']; try done.
    by apply IH.
Qed.

Lemma Split_nonempty s sep : strings.Split s sep ≠ [].
Proof.
  destruct s as [|c s]; cbn; [done|].
  destruct (Ascii.eqb c sep); [done|].
  destruct (strings.Split s sep); done.
Qed.

Lemma Split_single_empty s sep : strings.Split s sep = [""] ↔ s = "".
Proof.
  split; [|by intros ->].
  destruct s as [|c s]; cbn; [done|].
  destruct (Ascii.eqb c sep).
  - intros [= H]. by apply Split_nonempty in H.
  - destruct (strings.Split s sep); done.
Qed.

(** X5. On every input in which no line starts with an equals sign followed
    by a backtick, [parseKeyValuePairs] computes what the automaton of the
    specification computes, failures and their messages included. *)
Theorem parseKeyValuePairs_refines data :
  Forall (λ line, opensEmptyKeyBlock line = false)
         (strings.Split data "010"%char) →
  parseKeyValuePairs data = ValueParser.toResult (ValueParser.parse data).
Proof.
  intros Hall. unfold parseKeyValuePairs, ValueParser.parse.
  destruct (String.eqb_spec data "") as [->|Hne]; [done|].
  pose proof (rangeLines_run (strings.Split data "010"%char) 0
                (Locals ∅ "" "") (ValueParser.Normal, ∅) eq_refl Hall) as Hrun.
  assert (strings.Split data "010"%char ≠ [""]) as Hsplit
    by (by rewrite Split_single_empty).
  destruct (strings.Split data "010"%char) as [|[|c l] [|l' ls]] eqn:Hl;
    try done;
    (destruct (rangeLines 0 _ _) as [st'|e],
              (ValueParser.run 0 _ _) as [fe|[[|key acc] mapping]];
     try done; cbn in Hrun;
     [by subst | destruct Hrun as [-> Hkey]; cbn;
                 destruct key; [done|reflexivity] | by subst]).
Qed.

End parser_refinement.

(** ** The parser on concrete inputs *)
Section parser_examples.

Example parse_empty_input :
  parseKeyValuePairs "" = Err (errorString "empty").
Proof. reflexivity. Qed.

Example parse_two_lines :
  parseKeyValuePairs ("a=1" +:+ LF +:+ "b=2") = Ok {[ "a" := "1"; "b" := "2" ]}.
Proof. vm_compute. reflexivity. Qed.

Example parse_block_two_lines :
  parseKeyValuePairs ("a=`x" +:+ LF +:+ "y`") = Ok {[ "a" := "x" +:+ LF +:+ "y" ]}.
Proof. vm_compute. reflexivity. Qed.

Example parse_block_escaped_backtick :
  parseKeyValuePairs "a=`x\`y`" = Ok {[ "a" := "x`y" ]}.
Proof. vm_compute. reflexivity. Qed.

Example parse_block_never_closed :
  parseKeyValuePairs "a=`x" = Err (errorString "Backticked block is not closed").
Proof. vm_compute. reflexivity. Qed.

Example parse_missing_separator_second_line :
  parseKeyValuePairs ("a=b=c" +:+ LF +:+ "foo")
  = Err (errorString "Missing '=' at line: 1").
Proof. vm_compute. reflexivity. Qed.

(** a buffer left behind by a block under the empty key leaks into the
    next block *)
Example parse_empty_key_block_leaks :
  parseKeyValuePairs ("=`x" +:+ LF +:+ "a=`y`") = Ok {[ "a" := "xy" ]}.
Proof. vm_compute. reflexivity. Qed.

End parser_examples.

(** C5. The parser is claimed to fail exactly when the input is empty, when
    a line outside an open block has no separator, or when the input ends
    inside an open block.  On the one-line input made of an equals sign, a
    backtick and [x], the value opens a block that is never closed: the
    automaton of the specification reports an unterminated block, while
    [parseKeyValuePairs] returns the empty mapping and no error, because it
    takes the empty key for "no block is open". *)
Theorem parse_unterminated_block_under_empty_key :
  parseKeyValuePairs "=`x" = Ok ∅
  ∧ ValueParser.parse "=`x" = inl ValueParser.UnterminatedBlock.
Proof. split; vm_compute; reflexivity. Qed.

(** C6. A value that begins with a backtick is claimed to open a block to
    which the following lines are appended until one ends with an unescaped
    backtick.  On the two lines [=`x] and [y`] the automaton of the
    specification yields the mapping of the empty key to the two-line value,
    while [parseKeyValuePairs] does not enter the block under the empty key,
    reads the second line as a key/value line and fails on it. *)
Theorem parse_block_under_empty_key_not_entered :
  parseKeyValuePairs ("=`x" +:+ LF +:+ "y`")
  = Err (errorString "Missing '=' at line: 1")
  ∧ ValueParser.parse ("=`x" +:+ LF +:+ "y`")
    = inr {[ "" := "x" +:+ LF +:+ "y" ]}.
Proof. split; vm_compute; reflexivity. Qed.

(** A one-line input with a separator and no opening backtick parses to the
    one-entry mapping of its two sides. *)
Lemma Split_no_LF s :
  strings.ContainsByte s "010"%char = false → strings.Split s "010"%char = [s].
Proof.
  induction s as [|c s IH]; cbn; [done|].
  intros [-> Hs]%orb_false_elim. by rewrite (IH Hs).
Qed.

Lemma parse_single_line key value :
  strings.ContainsByte key "="%char = false →
  strings.ContainsByte (key +:+ String "="%char value) "010"%char = false →
  strings.HasPrefix value "`" = false →
  parseKeyValuePairs (key +:+ String "="%char value) = Ok {[ key := value ]}.
Proof.
  intros Hkey Hnl Hvalue. unfold parseKeyValuePairs.
  rewrite (Split_no_LF _ Hnl).
  assert (loopBody 0 (key +:+ String "="%char value) (Locals ∅ "" "")
          = Ok (Locals {[ key := value ]} "" "")) as Hbody.
  { unfold loopBody, strings.SplitN2. rewrite (Cut_app _ _ _ Hkey). cbn.
    unfold strings.CutPrefix. by rewrite Hvalue. }
  cbn [rangeLines]. rewrite Hbody. cbn.
  destruct (key +:+ String "="%char value) eqn:Hline; [|done].
  destruct key; done.
Qed.

(** ** The store of annotation maps *)
Section heap_facts.

Implicit Types (h : heap) (r : ref) (m : gmap string string).

Lemma deref_alloc_new m h : deref (alloc m h).2 (alloc m h).1 = m.
Proof.
  unfold deref, alloc. cbn [fst snd].
  by rewrite (list_lookup_middle h [] m (length h) eq_refl).
Qed.

Lemma deref_alloc_old m h r : r ≠ length h → deref (alloc m h).2 r = deref h r.
Proof.
  intros Hr. unfold deref, alloc. cbn [fst snd].
  destruct (decide (r < length h)) as [Hlt|Hge].
  - by rewrite lookup_app_l.
  - rewrite !lookup_ge_None_2; [done|lia|rewrite length_app; cbn; lia].
Qed.

Lemma length_mapassign r key value h :
  length (mapassign r key value h) = length h.
Proof. apply length_alter. Qed.

Lemma deref_mapassign_other r r' key value h :
  r ≠ r' → deref (mapassign r key value h) r' = deref h r'.
Proof. intros Hr. unfold deref, mapassign. by rewrite list_lookup_alter_ne. Qed.

Lemma deref_mapassign_same r key value h :
  r < length h →
  deref (mapassign r key value h) r = <[key := value]> (deref h r).
Proof.
  intros Hr. unfold deref, mapassign. rewrite list_lookup_alter_eq.
  destruct (lookup_lt_is_Some_2 h r Hr) as [m ->]. done.
Qed.

(** [copyStringMap] returns a new address holding the entries of its
    source and writes nowhere else. *)
Lemma copyStringMap_spec source h :
  let '(results, h') := copyStringMap source h in
  results = length h
  ∧ length h' = S (length h)
  ∧ deref h' results = deref h source
  ∧ ∀ r, r ≠ results → deref h' r = deref h r.
Proof.
  unfold copyStringMap.
  destruct (alloc ∅ h) as [results h1] eqn:Halloc.
  assert (results = length h ∧ h1 = (h ++ [∅])%list) as [Hres Hh1]
    by (unfold alloc in Halloc; by inversion Halloc).
  split; [done|].
  assert (deref h1 source = deref h source) as ->.
  { subst h1. destruct (decide (source = length h)) as [->|Hne].
    - change (h ++ [∅])%list with (alloc ∅ h).2.
      change (length h) with (alloc ∅ h).1 at 1.
      rewrite deref_alloc_new. unfold deref.
      by rewrite lookup_ge_None_2.
    - by apply (deref_alloc_old ∅). }
  apply (map_fold_weak_ind
           (λ heap m, length heap = S (length h)
                      ∧ deref heap results = m
                      ∧ ∀ r, r ≠ results → deref heap r = deref h r)).
  - subst h1 results. split; [rewrite length_app; cbn; lia|].
    split; [apply (deref_alloc_new ∅)|].
    intros r Hr. by apply (deref_alloc_old ∅).
  - intros key value m heap Hfresh (Hlen & Hsame & Hother).
    rewrite length_mapassign. split; [done|]. split.
    + rewrite deref_mapassign_same by lia. by rewrite Hsame.
    + intros r Hr. rewrite deref_mapassign_other by done. by apply Hother.
Qed.

(** The overlay writes the preserved entries whose key is not a
    scope-control key into the map at [target] and nowhere else. *)
Lemma overlayPreserved_spec target preserved h :
  target < length h →
  let h' := overlayPreserved target preserved h in
  length h' = length h
  ∧ (∀ r, r ≠ target → deref h' r = deref h r)
  ∧ ∀ key, deref h' target !! key =
      if isScopeAnnotation key then deref h target !! key
      else match preserved !! key with
           | Some value => Some value
           | None => deref h target !! key
           end.
Proof.
  intros Htarget. cbn zeta. unfold overlayPreserved.
  apply (map_fold_weak_ind
           (λ heap m, length heap = length h
                      ∧ (∀ r, r ≠ target → deref heap r = deref h r)
                      ∧ ∀ key, deref heap target !! key =
                          if isScopeAnnotation key then deref h target !! key
                          else match m !! key with
                               | Some value => Some value
                               | None => deref h target !! key
                               end)).
  - split; [done|]. split; [done|].
    intros key. rewrite lookup_empty. by destruct (isScopeAnnotation key).
  - intros k v m heap Hfresh (Hlen & Hother & Hkeys).
    destruct (isScopeAnnotation k) eqn:Hk.
    + split; [done|]. split; [done|]. intros key.
      rewrite Hkeys. destruct (decide (k = key)) as [->|Hne].
      * by rewrite Hk.
      * by rewrite lookup_insert_ne.
    + rewrite length_mapassign. split; [done|]. split.
      * intros r Hr. rewrite deref_mapassign_other by done. by apply Hother.
      * intros key. rewrite deref_mapassign_same by lia.
        destruct (decide (k = key)) as [->|Hne].
        -- rewrite !lookup_insert_eq. by rewrite Hk.
        -- rewrite !lookup_insert_ne by done. apply Hkeys.
Qed.

(** Written through the address of the scope annotations themselves, the
    overlay would show in every holder of that address; hence the copy. *)
Example overlay_through_alias_shows :
  let '(scopeAnnotations, h) := getScopeAnnotations "strict" [] in
  deref (overlayPreserved scopeAnnotations {[ "owner" := "team-x" ]} h)
        scopeAnnotations
  = {[ "owner" := "team-x" ]}.
Proof. vm_compute. reflexivity. Qed.

End heap_facts.

(** ** Labels and scope annotations *)
Section scope_facts.

Context {PublicKey : Type}.
Implicit Types (s : SealedSecretService) (req : encryptRequest PublicKey).

Lemma getScopeAnnotations_alloc scope (h : heap) :
  getScopeAnnotations scope h = alloc (scopeAnnotationSet scope) h.
Proof.
  unfold scopeAnnotationSet, getScopeAnnotations.
  destruct (String.eqb scope "cluster"); [done|].
  destruct (String.eqb scope "namespace"); done.
Qed.

Lemma scopeAnnotationSet_only_scope_keys scope key :
  isScopeAnnotation key = false → scopeAnnotationSet scope !! key = None.
Proof.
  unfold scopeAnnotationSet, getScopeAnnotations, isScopeAnnotation.
  intros [Hc Hn]%orb_false_elim.
  apply String.eqb_neq in Hc, Hn.
  destruct (String.eqb scope "cluster"); cbn.
  - by apply lookup_singleton_ne.
  - destruct (String.eqb scope "namespace"); cbn.
    + by apply lookup_singleton_ne.
    + done.
Qed.

Lemma ContainsByte_app_sep (before after : string) (sep : ascii) :
  strings.ContainsByte (before +:+ String sep after) sep = true.
Proof.
  induction before as [|c before IH].
  - rewrite append_nil_l. cbn. by rewrite Ascii.eqb_refl.
  - rewrite append_cons. cbn. rewrite IH. apply orb_true_r.
Qed.

(** Joining with a slash is injective when the left parts have none. *)
Lemma slash_join_inj (ns1 n1 ns2 n2 : string) :
  strings.ContainsByte ns1 "/"%char = false →
  strings.ContainsByte ns2 "/"%char = false →
  ns1 +:+ "/" +:+ n1 = ns2 +:+ "/" +:+ n2 →
  ns1 = ns2 ∧ n1 = n2.
Proof.
  intros H1 H2 Heq.
  pose proof (Cut_app ns1 n1 "/"%char H1) as Hcut1.
  pose proof (Cut_app ns2 n2 "/"%char H2) as Hcut2.
  change (String "/"%char n1) with ("/" +:+ n1) in Hcut1.
  change (String "/"%char n2) with ("/" +:+ n2) in Hcut2.
  rewrite Heq, Hcut2 in Hcut1. by inversion Hcut1.
Qed.

Lemma getLabel_namespace s req :
  scope req = "namespace" → getLabel s req = namespace req.
Proof. unfold getLabel. by intros ->. Qed.

Lemma getLabel_default s req :
  scope req ≠ "cluster" → scope req ≠ "namespace" →
  getLabel s req = namespace req +:+ "/" +:+ secretName req.
Proof.
  unfold getLabel. intros Hc%String.eqb_neq Hn%String.eqb_neq.
  by rewrite Hc, Hn.
Qed.

(** C7. Scope resolution.  For scope "cluster" the label is empty and the
    annotation set is the cluster-wide marker; for scope "namespace" the
    label is the namespace and the annotation set is the namespace-wide
    marker; for every other scope string, "strict" and unrecognised ones
    alike, the label is namespace, slash, secret name, and the annotation
    set is empty. *)
Theorem scope_resolution_mapping s (pk : PublicKey) (ns name sc : string)
    (vals : gmap string string) (h : heap) :
  let req scope := {| pubKey := pk; secretName := name; namespace := ns;
                      scope := scope; values := vals |} in
  let annotations scope :=
    deref (getScopeAnnotations scope h).2 (getScopeAnnotations scope h).1 in
  (getLabel s (req "cluster") = ""
   ∧ annotations "cluster"
     = {[ "sealedsecrets.bitnami.com/cluster-wide" := "true" ]})
  ∧ (getLabel s (req "namespace") = ns
     ∧ annotations "namespace"
       = {[ "sealedsecrets.bitnami.com/namespace-wide" := "true" ]})
  ∧ (sc ≠ "cluster" → sc ≠ "namespace" →
     getLabel s (req sc) = ns +:+ "/" +:+ name ∧ annotations sc = ∅).
Proof.
  cbn zeta. split; [|split].
  - split; [done|]. rewrite getScopeAnnotations_alloc. apply deref_alloc_new.
  - split; [done|]. rewrite getScopeAnnotations_alloc. apply deref_alloc_new.
  - intros Hc Hn. split; [by apply getLabel_default|].
    rewrite getScopeAnnotations_alloc, deref_alloc_new.
    unfold scopeAnnotationSet, getScopeAnnotations.
    apply String.eqb_neq in Hc, Hn. by rewrite Hc, Hn.
Qed.

(** Where namespaces contain no slash, as in a cluster: two requests,
    neither of them cluster-scoped, get different labels when their
    namespaces differ, and also when their secret names differ unless both
    are namespace-scoped. *)
Lemma label_distinct_slash_free s (r1 r2 : encryptRequest PublicKey) :
  scope r1 ≠ "cluster" → scope r2 ≠ "cluster" →
  strings.ContainsByte (namespace r1) "/"%char = false →
  strings.ContainsByte (namespace r2) "/"%char = false →
  namespace r1 ≠ namespace r2
  ∨ (secretName r1 ≠ secretName r2
     ∧ ¬ (scope r1 = "namespace" ∧ scope r2 = "namespace")) →
  getLabel s r1 ≠ getLabel s r2.
Proof.
  intros Hc1 Hc2 Hs1 Hs2 Hdiff Heq.
  destruct (decide (scope r1 = "namespace")) as [Hn1|Hn1],
           (decide (scope r2 = "namespace")) as [Hn2|Hn2].
  - rewrite !getLabel_namespace in Heq by done.
    destruct Hdiff as [Hns|[_ Hboth]]; [done | by apply Hboth].
  - rewrite getLabel_namespace, getLabel_default in Heq by done.
    rewrite Heq in Hs1.
    change ("/" +:+ secretName r2) with (String "/"%char (secretName r2)) in Hs1.
    by rewrite ContainsByte_app_sep in Hs1.
  - rewrite getLabel_default, getLabel_namespace in Heq by done.
    rewrite <- Heq in Hs2.
    change ("/" +:+ secretName r1) with (String "/"%char (secretName r1)) in Hs2.
    by rewrite ContainsByte_app_sep in Hs2.
  - rewrite !getLabel_default in Heq by done.
    apply slash_join_inj in Heq as [Hns Hname]; [|done..].
    destruct Hdiff as [Hd|[Hd _]]; done.
Qed.

Lemma append_nil_r (s : string) : s +:+ "" = s.
Proof. induction s as [|c s IH]; [done|]. by rewrite append_cons, IH. Qed.

Lemma append_assoc (a b c : string) : (a +:+ b) +:+ c = a +:+ b +:+ c.
Proof. induction a as [|k a IH]; [done|]. by rewrite !append_cons, IH. Qed.

(** two equal concatenations overlap in a common middle part *)
Lemma append_eq_append (a : string) : ∀ b c d : string,
  a +:+ b = c +:+ d →
  ∃ x, (a = c +:+ x ∧ d = x +:+ b) ∨ (c = a +:+ x ∧ b = x +:+ d).
Proof.
  induction a as [|k a IH]; intros b c d Heq.
  - exists c. right. by rewrite !append_nil_l in *.
  - destruct c as [|k' c].
    + exists (String k a). left. by rewrite !append_nil_l in *.
    + rewrite !append_cons in Heq. injection Heq as <- Heq.
      destruct (IH _ _ _ Heq) as [x [[-> ->]|[-> ->]]]; exists x; [left|right];
        by rewrite append_cons.
Qed.

Lemma slash_cons (n : string) : "/" +:+ n = String "/"%char n.
Proof. reflexivity. Qed.

(** When two strict labels coincide: the parts are the same, or the slash
    that joins one falls inside the namespace of the other. *)
Lemma slash_join_eq (ns1 n1 ns2 n2 : string) :
  ns1 +:+ "/" +:+ n1 = ns2 +:+ "/" +:+ n2
  ↔ (ns1 = ns2 ∧ n1 = n2)
    ∨ (∃ x, ns1 = ns2 +:+ "/" +:+ x ∧ n2 = x +:+ "/" +:+ n1)
    ∨ (∃ x, ns2 = ns1 +:+ "/" +:+ x ∧ n1 = x +:+ "/" +:+ n2).
Proof.
  split.
  - intros [x [[-> Hx]|[-> Hx]]]%append_eq_append.
    + destruct x as [|k x].
      * left. rewrite append_nil_r. rewrite append_nil_l, !slash_cons in Hx.
        by injection Hx as ->.
      * right. left. rewrite !slash_cons, append_cons in Hx.
        injection Hx as Hk Hn. subst k n2. exists x. by rewrite !slash_cons.
    + destruct x as [|k x].
      * left. rewrite append_nil_r. rewrite append_nil_l, !slash_cons in Hx.
        by injection Hx as ->.
      * right. right. rewrite !slash_cons, append_cons in Hx.
        injection Hx as Hk Hn. subst k n1. exists x. by rewrite !slash_cons.
  - intros [[-> ->]|[[x [-> ->]]|[x [-> ->]]]]; [done|..].
    + rewrite append_assoc. by f_equal.
    + rewrite append_assoc. by f_equal.
Qed.

(** C1, as the code has it.  Of two requests that are both namespace-scoped
    the labels differ exactly when the namespaces differ.  Of a
    namespace-scoped request and one of a scope that is neither cluster nor
    namespace, the labels differ exactly when the namespace of the first is
    not the namespace, a slash and the secret name of the second.  Of two
    requests of scopes that are neither cluster nor namespace, the labels
    differ exactly when the namespaces or the secret names differ and
    neither namespace is the other one followed by a slash and a text [x]
    while the other secret name is [x], a slash and this secret name.  In
    particular the labels of the second kind of pair differ whenever the
    namespace of the namespace-scoped request contains no slash, and those
    of the third kind differ whenever the namespaces or the secret names
    differ and neither namespace contains a slash. *)
Theorem labels_differ_exactly s (r1 r2 : encryptRequest PublicKey) :
  (scope r1 = "namespace" → scope r2 = "namespace" →
   (getLabel s r1 ≠ getLabel s r2 ↔ namespace r1 ≠ namespace r2))
  ∧ (scope r1 = "namespace" → scope r2 ≠ "cluster" → scope r2 ≠ "namespace" →
     (getLabel s r1 ≠ getLabel s r2
      ↔ namespace r1 ≠ namespace r2 +:+ "/" +:+ secretName r2)
     ∧ (strings.ContainsByte (namespace r1) "/"%char = false →
        getLabel s r1 ≠ getLabel s r2))
  ∧ (scope r1 ≠ "cluster" → scope r1 ≠ "namespace" →
     scope r2 ≠ "cluster" → scope r2 ≠ "namespace" →
     (getLabel s r1 ≠ getLabel s r2
      ↔ (namespace r1 ≠ namespace r2 ∨ secretName r1 ≠ secretName r2)
        ∧ (∀ x, ¬ (namespace r1 = namespace r2 +:+ "/" +:+ x
                   ∧ secretName r2 = x +:+ "/" +:+ secretName r1))
        ∧ (∀ x, ¬ (namespace r2 = namespace r1 +:+ "/" +:+ x
                   ∧ secretName r1 = x +:+ "/" +:+ secretName r2)))
     ∧ (strings.ContainsByte (namespace r1) "/"%char = false →
        strings.ContainsByte (namespace r2) "/"%char = false →
        namespace r1 ≠ namespace r2 ∨ secretName r1 ≠ secretName r2 →
        getLabel s r1 ≠ getLabel s r2)).
Proof.
  split; [|split].
  - intros Hn1 Hn2. by rewrite !getLabel_namespace.
  - intros Hn1 Hc2 Hn2. rewrite getLabel_namespace, getLabel_default by done.
    split; [done|]. intros Hslash Heq. rewrite Heq, slash_cons in Hslash.
    by rewrite ContainsByte_app_sep in Hslash.
  - intros Hc1 Hn1 Hc2 Hn2. rewrite !getLabel_default by done.
    split; [|intros Hs1 Hs2 Hdiff [? ?]%slash_join_inj; [|done..];
             by destruct Hdiff].
    rewrite slash_join_eq. split.
    + intros Hne. split; [|split].
      * destruct (decide (namespace r1 = namespace r2)) as [Hns|]; [|by left].
        destruct (decide (secretName r1 = secretName r2)) as [Hname|]; [|by right].
        exfalso. apply Hne. by left.
      * intros x Hx. apply Hne. right. left. by exists x.
      * intros x Hx. apply Hne. right. right. by exists x.
    + intros ([Hns|Hname] & H12 & H21) [[? ?]|[[x Hx]|[x Hx]]];
        [done|by apply (H12 x)|by apply (H21 x)|done|by apply (H12 x)
        |by apply (H21 x)].
Qed.

End scope_facts.

(** ** The merge of stored and submitted values *)
Section merge_facts.

Implicit Types (existing new source dst : gmap string string).

Lemma rangeAssign_union source dst : rangeAssign source dst = source ∪ dst.
Proof.
  unfold rangeAssign.
  apply (map_fold_weak_ind (λ acc m, acc = m ∪ dst)).
  - by rewrite (left_id_L ∅ (∪)).
  - intros key value m acc _ ->. by rewrite insert_union_l.
Qed.

Lemma valuesToEncrypt_union existing new :
  valuesToEncrypt existing new = new ∪ existing.
Proof.
  unfold valuesToEncrypt. rewrite !rangeAssign_union.
  by rewrite (right_id_L ∅ (∪)).
Qed.

(** The map the request carries: a submitted value wins over the stored
    one of the same key, and a key that is only stored keeps its stored
    value. *)
Lemma valuesToEncrypt_lookup existing new key :
  valuesToEncrypt existing new !! key =
    match new !! key with
    | Some value => Some value
    | None => existing !! key
    end.
Proof.
  rewrite valuesToEncrypt_union, lookup_union.
  destruct (new !! key), (existing !! key); done.
Qed.

Example merge_sticky :
  valuesToEncrypt {[ "a" := "1"; "b" := "2" ]} {[ "b" := "3"; "c" := "4" ]}
  = {[ "a" := "1"; "b" := "3"; "c" := "4" ]}.
Proof. vm_compute. reflexivity. Qed.

End merge_facts.

(** ** Preserved annotations *)
Section annotation_facts.

Implicit Types (s : SealedSecretService).

Lemma preserve_fold (allow : gset string) (annotations : gmap string string) key :
  set_fold (λ key (preserved : gmap string string),
              match annotations !! key with
              | Some value => <[key := value]> preserved
              | None => preserved
              end) ∅ allow !! key
  = if decide (key ∈ allow) then annotations !! key else None.
Proof.
  set (f := λ key (preserved : gmap string string),
              match annotations !! key with
              | Some value => <[key := value]> preserved
              | None => preserved
              end).
  set (P := λ (acc : gmap string string) (X : gset string),
              acc !! key = if decide (key ∈ X) then annotations !! key else None).
  change (P (set_fold f ∅ allow) allow).
  apply (set_fold_ind_L P f ∅); unfold P, f; clear P f.
  - rewrite lookup_empty. by case_decide; [set_solver|].
  - intros x X acc Hx IH.
    destruct (decide (x = key)) as [->|Hne].
    + rewrite decide_True by set_solver.
      destruct (annotations !! key) as [value|] eqn:Hv.
      * by rewrite lookup_insert_eq.
      * rewrite IH. by rewrite decide_False.
    + assert (acc !! key
              = if decide (key ∈ {[x]} ∪ X) then annotations !! key else None)
        as Hacc.
      { rewrite IH. destruct (decide (key ∈ X)).
        - by rewrite decide_True by set_solver.
        - rewrite decide_False; [done|].
          intros [Hin%elem_of_singleton|Hin]%elem_of_union; by subst. }
      destruct (annotations !! x); [by rewrite lookup_insert_ne|done].
Qed.

(** What [getSealedSecretAnnotations] returns when it returns: the stored
    annotations whose key is on the allow-list. *)
Lemma getSealedSecretAnnotations_Ok s namespace secretName preserved key :
  getSealedSecretAnnotations s namespace secretName = Ok preserved →
  preserved !! key
  = if decide (key ∈ annotationsToPreserve s)
    then storedAnnotations s namespace secretName !! key
    else None.
Proof.
  unfold getSealedSecretAnnotations, storedAnnotations.
  destruct (size (annotationsToPreserve s) =? 0)%nat eqn:Hsize.
  - apply Nat.eqb_eq, size_empty_iff in Hsize.
    intros [= <-]. rewrite lookup_empty.
    by rewrite decide_False by set_solver.
  - destruct (SealedSecretsGet (dynamicClient s) namespace secretName)
      as [sealedSecret|err].
    + destruct (size (GetAnnotations sealedSecret) =? 0)%nat eqn:Hann.
      * apply Nat.eqb_eq, map_size_empty_iff in Hann.
        intros [= <-]. rewrite Hann, !lookup_empty. by case_decide.
      * intros [= <-]. apply preserve_fold.
    + destruct (IsNotFound (Some err)); [|done].
      intros [= <-]. rewrite !lookup_empty. by case_decide.
Qed.

End annotation_facts.

(** ** The sealing pipeline *)
Section pipeline_facts.

Context {PublicKey Rand : Type}.
Context (hybridEncrypt : Rand → PublicKey → string → string → Result string).
Context (getPublicKey : SealedSecretService → Result PublicKey).
Context (yamlMarshal : SealedSecret (gmap string string) → Result string).

Implicit Types (rt : Runtime Rand) (s : SealedSecretService) (opts : CreateOpts).
Implicit Types (req : encryptRequest PublicKey) (h : heap).

(** The read of the stored secret has no failing outcome. *)
Lemma getSecretData_returns s namespace secretName :
  ∃ existingData, getSecretData s namespace secretName = Ok existingData.
Proof.
  unfold getSecretData.
  destruct (SecretsGet (k8sClient s) namespace secretName) as [secret err].
  destruct (IsNotFound err); eauto.
Qed.

Lemma getSecretData_not_found s namespace secretName secret err :
  SecretsGet (k8sClient s) namespace secretName = (secret, Some err) →
  IsNotFound (Some err) = true →
  getSecretData s namespace secretName = Ok ∅.
Proof. unfold getSecretData. by intros -> ->. Qed.

(** The two annotation maps of the record [yaml.Marshal] receives. *)
Lemma sealedRecord_annotations rt s opts h doc :
  sealedRecord hybridEncrypt getPublicKey rt s opts h = Ok doc →
  ∃ preserved,
    getSealedSecretAnnotations s (Namespace opts) (SecretName opts) = Ok preserved
    ∧ Annotations (TemplateMetadata (SpecTemplate (Spec doc)))
      = scopeAnnotationSet (Scope opts)
    ∧ ∀ key,
        Annotations (SealedMetadata doc) !! key =
          if isScopeAnnotation key then scopeAnnotationSet (Scope opts) !! key
          else match preserved !! key with
               | Some value => Some value
               | None => scopeAnnotationSet (Scope opts) !! key
               end.
Proof.
  unfold sealedRecord, assembleSealedSecret.
  destruct (getSecretData _ _ _) as [existingData|]; [|done].
  destruct (getPublicKey s) as [pk|]; [|done].
  destruct (encryptValues _ _ _ _) as [encryptedData|]; [|done].
  cbn [scope]. rewrite getScopeAnnotations_alloc. unfold alloc at 1.
  set (h1 := (h ++ [scopeAnnotationSet (Scope opts)])%list).
  pose proof (copyStringMap_spec (length h) h1) as Hcopy.
  destruct (copyStringMap (length h) h1) as [target h2].
  destruct Hcopy as (Htarget & Hlen2 & Hcopied & Hkept).
  assert (length h1 = S (length h)) as Hlen1
    by (unfold h1; rewrite length_app; cbn; lia).
  assert (deref h1 (length h) = scopeAnnotationSet (Scope opts)) as Hscope
    by apply (deref_alloc_new (scopeAnnotationSet (Scope opts)) h).
  destruct (getSealedSecretAnnotations _ _ _) as [preserved|]; [|done].
  intros [= <-]. exists preserved. split; [done|].
  destruct (overlayPreserved_spec target preserved h2) as (_ & Hother & Hkeys);
    [lia|].
  cbn. split.
  - rewrite Hother by lia. rewrite Hkept by lia. done.
  - intros key. rewrite Hkeys, Hcopied, Hscope. done.
Qed.

(** C2. In the record that is returned, the annotations of the metadata
    hold the two scope-control keys exactly as [getScopeAnnotations] gives
    them for the scope of the request, whatever the stored annotations and
    the allow-list say about them; under every other key they hold the
    stored annotation, as it is stored, when the key is on the allow-list,
    and nothing otherwise. *)
Theorem scope_control_annotations_recomputed rt s opts h doc key :
  sealedRecord hybridEncrypt getPublicKey rt s opts h = Ok doc →
  Annotations (SealedMetadata doc) !! key =
    if isScopeAnnotation key then scopeAnnotationSet (Scope opts) !! key
    else if decide (key ∈ annotationsToPreserve s)
    then storedAnnotations s (Namespace opts) (SecretName opts) !! key
    else None.
Proof.
  intros Hdoc.
  destruct (sealedRecord_annotations rt s opts h doc Hdoc)
    as (preserved & Hpreserved & _ & Hkeys).
  rewrite Hkeys.
  rewrite (getSealedSecretAnnotations_Ok _ _ _ _ key Hpreserved).
  destruct (isScopeAnnotation key) eqn:Hkey; [done|].
  rewrite (scopeAnnotationSet_only_scope_keys _ _ Hkey).
  case_decide; [|done].
  by destruct (storedAnnotations s (Namespace opts) (SecretName opts) !! key).
Qed.

(** C10. In the record that is returned, the annotations of the template
    are the scope annotations of the request and nothing else: the
    preserved annotations are written to the copy held by the metadata. *)
Theorem template_annotations_are_scope_annotations rt s opts h doc :
  sealedRecord hybridEncrypt getPublicKey rt s opts h = Ok doc →
  Annotations (TemplateMetadata (SpecTemplate (Spec doc)))
  = scopeAnnotationSet (Scope opts).
Proof.
  intros Hdoc.
  by destruct (sealedRecord_annotations rt s opts h doc Hdoc) as (_ & _ & Htpl & _).
Qed.

(** *** Encryption *)

Lemma encryptLoop_fails rt s req : ∀ todo i acc j key value err,
  todo !! j = Some (key, value) →
  hybridEncrypt (entropy rt (i + j)) (pubKey req) value (getLabel s req) = Err err →
  ∃ err', encryptLoop hybridEncrypt rt s req i todo acc
          = Err (Errorf_w "failed to encrypt value" err').
Proof.
  induction todo as [|[k v] todo IH]; intros i acc j key value err Hj Hfail.
  - done.
  - cbn [encryptLoop]. destruct j as [|j].
    + cbn in Hj. injection Hj as -> ->. rewrite Nat.add_0_r in Hfail.
      rewrite Hfail. eauto.
    + destruct (hybridEncrypt (entropy rt i) (pubKey req) v (getLabel s req))
        as [enc|err0]; [|eauto].
      apply (IH (S i) _ j key value err); [done|].
      by rewrite Nat.add_succ_comm.
Qed.

(** When the loop returns a mapping, every visited entry was encrypted with
    the randomness of its turn. *)
Lemma encryptLoop_Ok rt s req : ∀ todo i acc encryptedData,
  encryptLoop hybridEncrypt rt s req i todo acc = Ok encryptedData →
  (∀ j key value, todo !! j = Some (key, value) →
     ∃ enc, hybridEncrypt (entropy rt (i + j)) (pubKey req) value (getLabel s req)
            = Ok enc)
  ∧ dom encryptedData = dom acc ∪ list_to_set todo.*1.
Proof.
  induction todo as [|[k v] todo IH]; intros i acc encryptedData; cbn [encryptLoop].
  - intros [= <-]. split; [done|]. cbn. by rewrite (right_id_L ∅ (∪)).
  - destruct (hybridEncrypt _ _ _ _) as [enc|] eqn:Henc; [|done].
    intros Hrest. destruct (IH _ _ _ Hrest) as [Hall Hdom]. split.
    + intros [|j] key value Hj.
      * cbn in Hj. injection Hj as <- <-. rewrite Nat.add_0_r. eauto.
      * specialize (Hall j key value Hj).
        by rewrite Nat.add_succ_comm in Hall.
    + rewrite Hdom, dom_insert_L. cbn.
      by rewrite (assoc_L (∪)), (comm_L (∪) (dom acc)).
Qed.

Lemma encryptLoop_returns rt s req : ∀ todo i acc,
  (∀ j key value, todo !! j = Some (key, value) →
     ∃ enc, hybridEncrypt (entropy rt (i + j)) (pubKey req) value (getLabel s req)
            = Ok enc) →
  ∃ encryptedData, encryptLoop hybridEncrypt rt s req i todo acc = Ok encryptedData.
Proof.
  induction todo as [|[k v] todo IH]; intros i acc Hall; cbn [encryptLoop].
  - eauto.
  - destruct (Hall 0 k v eq_refl) as [enc Henc]. rewrite Nat.add_0_r in Henc.
    rewrite Henc. apply IH. intros j key value Hj.
    specialize (Hall (S j) key value Hj).
    by rewrite <- Nat.add_succ_comm in Hall.
Qed.

Lemma encryptValues_failure rt s req j key value err :
  rangeOrder rt (values req) !! j = Some (key, value) →
  hybridEncrypt (entropy rt j) (pubKey req) value (getLabel s req) = Err err →
  ∃ err', encryptValues hybridEncrypt rt s req
          = Err (Errorf_w "failed to encrypt value" err').
Proof. intros Hj Hfail. by apply (encryptLoop_fails _ _ _ _ 0 ∅ j key value err). Qed.

(** C4. If the encryption of a single value fails, whichever turn of the
    loop it has, [encryptValues] returns the wrapped error and no mapping,
    and so do the assembly of the record and [CreateSealedSecret]: the
    caller sees no record and no manifest. *)
Theorem sealing_fails_atomically rt s opts h existingData pk j key value err :
  getSecretData s (Namespace opts) (SecretName opts) = Ok existingData →
  getPublicKey s = Ok pk →
  rangeOrder rt (values (requestOf opts existingData pk)) !! j = Some (key, value) →
  hybridEncrypt (entropy rt j) pk value (getLabel s (requestOf opts existingData pk))
  = Err err →
  ∃ err',
    encryptValues hybridEncrypt rt s (requestOf opts existingData pk)
    = Err (Errorf_w "failed to encrypt value" err')
    ∧ sealedRecord hybridEncrypt getPublicKey rt s opts h
      = Err (Errorf_w "failed to encrypt value" err')
    ∧ CreateSealedSecret hybridEncrypt getPublicKey yamlMarshal rt s opts h
      = Err (Errorf_w "failed to encrypt value" err').
Proof.
  intros Hdata Hkey Hj Hfail.
  destruct (encryptValues_failure rt s _ j key value err Hj Hfail) as [err' Henc].
  exists err'. split; [done|].
  assert (sealedRecord hybridEncrypt getPublicKey rt s opts h
          = Err (Errorf_w "failed to encrypt value" err')) as Hrec.
  { unfold sealedRecord, assembleSealedSecret.
    rewrite Hdata, Hkey. fold (requestOf opts existingData pk). by rewrite Henc. }
  split; [done|]. unfold CreateSealedSecret. by rewrite Hrec.
Qed.

(** The same for a value named by its key: when [range] visits every entry
    and the value cannot be encrypted whatever the randomness, the call
    fails. *)
Lemma CreateSealedSecret_fails_for_value rt s opts h existingData pk key value :
  fairRange rt →
  getSecretData s (Namespace opts) (SecretName opts) = Ok existingData →
  getPublicKey s = Ok pk →
  valuesToEncrypt existingData (Values opts) !! key = Some value →
  (∀ r, isErr (hybridEncrypt r pk value
                 (getLabel s (requestOf opts existingData pk))) = true) →
  isErr (CreateSealedSecret hybridEncrypt getPublicKey yamlMarshal rt s opts h)
  = true.
Proof.
  intros Hfair Hdata Hkey Hvalue Hfail.
  assert ((key, value) ∈ rangeOrder rt (values (requestOf opts existingData pk)))
    as Hin by (rewrite (Hfair _); by apply elem_of_map_to_list).
  apply list_elem_of_lookup_1 in Hin as [j Hj].
  specialize (Hfail (entropy rt j)).
  destruct (hybridEncrypt (entropy rt j) pk value _) as [|err] eqn:Herr; [done|].
  destruct (encryptValues_failure rt s _ j key value err Hj Herr) as [err' Henc].
  unfold CreateSealedSecret, sealedRecord, assembleSealedSecret.
  rewrite Hdata, Hkey. fold (requestOf opts existingData pk). by rewrite Henc.
Qed.

(** X20. The record is returned when the key is there, every encryption
    succeeds and the preserved annotations can be read. *)
Lemma sealedRecord_returns rt s opts h existingData pk preserved :
  getSecretData s (Namespace opts) (SecretName opts) = Ok existingData →
  getPublicKey s = Ok pk →
  (∀ j key value,
     rangeOrder rt (values (requestOf opts existingData pk)) !! j = Some (key, value) →
     ∃ enc, hybridEncrypt (entropy rt j) pk value
              (getLabel s (requestOf opts existingData pk)) = Ok enc) →
  getSealedSecretAnnotations s (Namespace opts) (SecretName opts) = Ok preserved →
  ∃ doc, sealedRecord hybridEncrypt getPublicKey rt s opts h = Ok doc.
Proof.
  intros Hdata Hkey Hall Hpreserved.
  unfold sealedRecord, assembleSealedSecret.
  rewrite Hdata, Hkey. fold (requestOf opts existingData pk).
  destruct (encryptLoop_returns rt s (requestOf opts existingData pk)
              (rangeOrder rt (values (requestOf opts existingData pk))) 0 ∅ Hall)
    as [encryptedData Henc].
  unfold encryptValues. rewrite Henc.
  destruct (getScopeAnnotations _ h) as [scopeAnnotations h1].
  destruct (copyStringMap scopeAnnotations h1) as [target h2].
  rewrite Hpreserved. eauto.
Qed.

(** In the record that is returned, the encrypted data has one entry for
    each key of the merged values. *)
Lemma sealedRecord_encrypts_merged rt s opts h existingData doc :
  fairRange rt →
  getSecretData s (Namespace opts) (SecretName opts) = Ok existingData →
  sealedRecord hybridEncrypt getPublicKey rt s opts h = Ok doc →
  dom (EncryptedData (Spec doc)) = dom (Values opts) ∪ dom existingData.
Proof.
  intros Hfair Hdata. unfold sealedRecord, assembleSealedSecret.
  rewrite Hdata. destruct (getPublicKey s) as [pk|]; [|done].
  fold (requestOf opts existingData pk).
  destruct (encryptValues _ _ _ _) as [encryptedData|] eqn:Henc; [|done].
  destruct (getScopeAnnotations _ h) as [scopeAnnotations h1].
  destruct (copyStringMap scopeAnnotations h1) as [target h2].
  destruct (getSealedSecretAnnotations _ _ _) as [preserved|]; [|done].
  intros [= <-]. cbn.
  apply encryptLoop_Ok in Henc as [_ ->].
  rewrite dom_empty_L, (left_id_L ∅ (∪)), (Hfair _).
  cbn [values requestOf]. rewrite valuesToEncrypt_union, <- dom_union_L.
  apply set_eq. intros key. by rewrite <- dom_alt.
Qed.

End pipeline_facts.


(** ** The statements on the concrete cluster *)

(** Any failure of the secret read other than absence is dropped: the data
    of the object that came with the error is decoded and returned. *)
Lemma getSecretData_ignores_other_errors s namespace secretName secret err :
  SecretsGet (k8sClient s) namespace secretName = (secret, Some err) →
  IsNotFound (Some err) = false →
  getSecretData s namespace secretName = Ok (decodeSecret (Data secret)).
Proof. unfold getSecretData. by intros -> ->. Qed.

(** C3. A missing secret gives the empty mapping and no error, and every
    other failure of the read is claimed to reach the caller.  On a cluster
    whose read fails with an internal error, [getSecretData] returns the
    empty mapping and no error, and [CreateSealedSecret] returns a manifest:
    the same record as on a cluster where the secret is absent. *)
Theorem secret_read_failure_is_swallowed :
  getSecretData flakyCluster "prod" "db" = Ok ∅
  ∧ CreateSealedSecret stubEncrypt stubPublicKey stubMarshal stubRuntime
      flakyCluster (strictRequest {[ "a" := "1" ]}) []
    = Ok "SealedSecret/prod/db"
  ∧ sealedRecord stubEncrypt stubPublicKey stubRuntime
      flakyCluster (strictRequest {[ "a" := "1" ]}) []
    = sealedRecord stubEncrypt stubPublicKey stubRuntime
        emptyCluster (strictRequest {[ "a" := "1" ]}) [].
Proof. repeat split; vm_compute; reflexivity. Qed.

(** C1 fails as stated: two namespace-scoped requests in one namespace get
    the same label whatever their secret names. *)
Lemma label_distinctness_fails_in_namespace_scope :
  ¬ (∀ (s : SealedSecretService) (r1 r2 : encryptRequest unit),
       scope r1 = "namespace" ∨ scope r1 = "strict" →
       scope r2 = "namespace" ∨ scope r2 = "strict" →
       namespace r1 ≠ namespace r2 ∨ secretName r1 ≠ secretName r2 →
       getLabel s r1 ≠ getLabel s r2).
Proof.
  intros Hclaim.
  apply (Hclaim emptyCluster (labelRequest "namespace" "prod" "db")
                (labelRequest "namespace" "prod" "api")).
  - by left.
  - by left.
  - right. discriminate.
  - reflexivity.
Qed.

(** A slash inside a namespace moves the boundary between the two parts of
    a strict label. *)
Example strict_labels_collide_on_slash :
  getLabel emptyCluster (labelRequest "strict" "a/b" "c")
  = getLabel emptyCluster (labelRequest "strict" "a" "b/c").
Proof. reflexivity. Qed.

Lemma labels_differ_exactly_witness :
  getLabel emptyCluster (labelRequest "namespace" "a/b" "db")
  ≠ getLabel emptyCluster (labelRequest "namespace" "a/c" "db")
  ∧ getLabel emptyCluster (labelRequest "namespace" "prod" "db")
    ≠ getLabel emptyCluster (labelRequest "strict" "prod" "db")
  ∧ getLabel emptyCluster (labelRequest "strict" "prod" "db")
    ≠ getLabel emptyCluster (labelRequest "strict" "prod" "api").
Proof.
  split; [|split].
  - destruct (labels_differ_exactly emptyCluster
                (labelRequest "namespace" "a/b" "db")
                (labelRequest "namespace" "a/c" "db")) as (Hboth & _ & _).
    apply Hboth; [reflexivity|reflexivity|discriminate].
  - destruct (labels_differ_exactly emptyCluster
                (labelRequest "namespace" "prod" "db")
                (labelRequest "strict" "prod" "db")) as (_ & Hmixed & _).
    apply Hmixed; [reflexivity|discriminate|discriminate|reflexivity].
  - destruct (labels_differ_exactly emptyCluster
                (labelRequest "strict" "prod" "db")
                (labelRequest "strict" "prod" "api")) as (_ & _ & Hstrict).
    destruct Hstrict as [Hiff _]; [discriminate..|].
    apply Hiff.
    split; [right; discriminate|].
    split; intros x [Hx _]; vm_compute in Hx; discriminate Hx.
Defined.

Lemma scope_resolution_mapping_witness :
  getLabel emptyCluster (labelRequest "strict" "prod" "db") = "prod/db"
  ∧ deref (getScopeAnnotations "strict" []).2 (getScopeAnnotations "strict" []).1 = ∅.
Proof.
  destruct (scope_resolution_mapping emptyCluster tt "prod" "db" "strict" ∅ [])
    as (_ & _ & Hstrict).
  apply Hstrict; discriminate.
Defined.

Lemma ownedRecord_sealed :
  sealedRecord stubEncrypt stubPublicKey stubRuntime ownedCluster
    (strictRequest {[ "a" := "1" ]}) [] = Ok ownedRecord.
Proof. vm_compute. reflexivity. Defined.

Lemma scope_control_annotations_recomputed_witness :
  Annotations (SealedMetadata ownedRecord)
    !! "sealedsecrets.bitnami.com/namespace-wide" = None
  ∧ Annotations (SealedMetadata ownedRecord) !! "owner" = Some "team-x".
Proof.
  split.
  - rewrite (scope_control_annotations_recomputed stubEncrypt stubPublicKey
               stubRuntime ownedCluster (strictRequest {[ "a" := "1" ]}) []
               ownedRecord "sealedsecrets.bitnami.com/namespace-wide"
               ownedRecord_sealed).
    vm_compute. reflexivity.
  - rewrite (scope_control_annotations_recomputed stubEncrypt stubPublicKey
               stubRuntime ownedCluster (strictRequest {[ "a" := "1" ]}) []
               ownedRecord "owner" ownedRecord_sealed).
    vm_compute. reflexivity.
Defined.

Lemma template_annotations_are_scope_annotations_witness :
  Annotations (TemplateMetadata (SpecTemplate (Spec ownedRecord)))
  = scopeAnnotationSet "strict".
Proof.
  apply (template_annotations_are_scope_annotations stubEncrypt stubPublicKey
           stubRuntime ownedCluster (strictRequest {[ "a" := "1" ]}) []
           ownedRecord ownedRecord_sealed).
Defined.

Lemma sealing_fails_atomically_witness :
  ∃ err',
    encryptValues stubEncrypt stubRuntime emptyCluster
      (requestOf (strictRequest {[ "a" := "1"; "b" := "unsealable" ]}) ∅ tt)
    = Err (Errorf_w "failed to encrypt value" err')
    ∧ sealedRecord stubEncrypt stubPublicKey stubRuntime emptyCluster
        (strictRequest {[ "a" := "1"; "b" := "unsealable" ]}) []
      = Err (Errorf_w "failed to encrypt value" err')
    ∧ CreateSealedSecret stubEncrypt stubPublicKey stubMarshal stubRuntime
        emptyCluster (strictRequest {[ "a" := "1"; "b" := "unsealable" ]}) []
      = Err (Errorf_w "failed to encrypt value" err').
Proof.
  apply (sealing_fails_atomically stubEncrypt stubPublicKey stubMarshal
           stubRuntime emptyCluster
           (strictRequest {[ "a" := "1"; "b" := "unsealable" ]}) [] ∅ tt
           1 "b" "unsealable" (errorString "rsa: message too long"));
    vm_compute; reflexivity.
Defined.

(** * Further properties of the parser *)
Section parser_more.

Lemma Cut_None s sep :
  strings.Cut s sep = None ↔ strings.ContainsByte s sep = false.
Proof.
  induction s as [|c s IH]; cbn; [done|].
  destruct (Ascii.eqb c sep); cbn; [done|].
  destruct (strings.Cut s sep) as [[b a]|]; cbn.
  - split; [done|]. intros H. apply IH in H. done.
  - split; [|done]. intros _. by apply IH.
Qed.

(** Splitting distributes over a line feed in the middle. *)
Lemma Split_app_LF (a b : string) :
  strings.Split (a +:+ String "010"%char b) "010"%char
  = (strings.Split a "010"%char ++ strings.Split b "010"%char)%list.
Proof.
  induction a as [|c a IH].
  - rewrite append_nil_l. reflexivity.
  - rewrite append_cons. cbn [strings.Split].
    destruct (Ascii.eqb c "010"%char).
    + by rewrite IH.
    + rewrite IH. pose proof (Split_nonempty a "010"%char) as Hne.
      by destruct (strings.Split a "010"%char).
Qed.

Lemma rangeLines_app lines1 : ∀ lines2 i st,
  rangeLines i (lines1 ++ lines2) st
  = match rangeLines i lines1 st with
    | Ok st' => rangeLines (i + length lines1) lines2 st'
    | Err e => Err e
    end.
Proof.
  induction lines1 as [|line lines1 IH]; intros lines2 i st; cbn.
  - by rewrite Nat.add_0_r.
  - destruct (loopBody i line st) as [st'|e]; [|done].
    rewrite IH. by rewrite Nat.add_succ_comm.
Qed.

Lemma parseKeyValuePairs_lines data :
  strings.Split data "010"%char ≠ [""] →
  parseKeyValuePairs data
  = match rangeLines 0 (strings.Split data "010"%char) (Locals ∅ "" "") with
    | Err e => Err e
    | Ok st =>
        if negb (String.length (multilineKey st) =? 0)%nat
        then Err (errorString "Backticked block is not closed")
        else Ok (result st)
    end.
Proof.
  intros Hne. unfold parseKeyValuePairs.
  by destruct (strings.Split data "010"%char) as [|[|c l] [|l' ls]].
Qed.

Lemma parseKeyValuePairs_Ok data mapping :
  parseKeyValuePairs data = Ok mapping →
  strings.Split data "010"%char ≠ [""]
  ∧ ∃ st, rangeLines 0 (strings.Split data "010"%char) (Locals ∅ "" "") = Ok st
          ∧ multilineKey st = "" ∧ result st = mapping.
Proof.
  intros Hok.
  assert (strings.Split data "010"%char ≠ [""]) as Hne.
  { intros Hs. unfold parseKeyValuePairs in Hok. by rewrite Hs in Hok. }
  split; [done|]. rewrite (parseKeyValuePairs_lines _ Hne) in Hok.
  destruct (rangeLines 0 _ _) as [st|]; [|done]. exists st. split; [done|].
  destruct (multilineKey st) as [|c k]; cbn in Hok; [|done].
  by injection Hok as <-.
Qed.

Lemma loopBody_Err i line st e :
  loopBody i line st = Err e →
  strings.Cut line "="%char = None ∧ e = missingSeparator i.
Proof.
  unfold loopBody, strings.SplitN2.
  destruct (0 <? String.length (multilineKey st))%nat.
  - destruct (cutBlockLine line) as [l []]; done.
  - destruct (strings.Cut line "="%char) as [[key value]|].
    + destruct (strings.CutPrefix value "`") as [part []]; [|done].
      destruct (cutBlockLine part) as [l []]; done.
    + by intros [= <-].
Qed.

Lemma rangeLines_Err lines : ∀ i st e,
  rangeLines i lines st = Err e →
  ∃ j line, lines !! j = Some line
            ∧ strings.Cut line "="%char = None ∧ e = missingSeparator (i + j).
Proof.
  induction lines as [|line lines IH]; intros i st e; cbn; [done|].
  destruct (loopBody i line st) as [st'|e'] eqn:Hbody.
  - intros (j & l & Hj & Hcut & ->)%IH. exists (S j), l.
    by rewrite <- Nat.add_succ_comm.
  - intros [= <-]. apply loopBody_Err in Hbody as [Hcut ->].
    exists 0, line. by rewrite Nat.add_0_r.
Qed.

(** X1. The parser has three errors and no other: the one for the empty input,
    the one for an unclosed block, and the one that names a line, which is
    then a line of the input without separator. *)
Theorem parse_error_kinds data e :
  parseKeyValuePairs data = Err e →
  (data = "" ∧ e = errorString "empty")
  ∨ (∃ i line, strings.Split data "010"%char !! i = Some line
               ∧ strings.ContainsByte line "="%char = false
               ∧ e = errorString ("Missing '=' at line: " +:+ itoa i))
  ∨ e = errorString "Backticked block is not closed".
Proof.
  intros Herr.
  destruct (decide (strings.Split data "010"%char = [""])) as [Hs|Hne].
  - left. split; [by apply Split_single_empty in Hs|].
    unfold parseKeyValuePairs in Herr. rewrite Hs in Herr. by injection Herr.
  - right. rewrite (parseKeyValuePairs_lines _ Hne) in Herr.
    destruct (rangeLines 0 _ _) as [st|e'] eqn:Hrun.
    + right. destruct (negb _); [by injection Herr|done].
    + left. injection Herr as <-.
      apply rangeLines_Err in Hrun as (j & line & Hj & Hcut%Cut_None & ->).
      by exists j, line.
Qed.

Lemma parse_error_kinds_witness :
  (("a=b=c" +:+ LF +:+ "foo") = "" ∧ missingSeparator 1 = errorString "empty")
  ∨ (∃ i line, strings.Split ("a=b=c" +:+ LF +:+ "foo") "010"%char !! i = Some line
               ∧ strings.ContainsByte line "="%char = false
               ∧ missingSeparator 1
                 = errorString ("Missing '=' at line: " +:+ itoa i))
  ∨ missingSeparator 1 = errorString "Backticked block is not closed".
Proof.
  apply (parse_error_kinds ("a=b=c" +:+ LF +:+ "foo") (missingSeparator 1)).
  vm_compute. reflexivity.
Defined.

Lemma loopBody_keysClean i line st st' :
  loopBody i line st = Ok st' → keysClean st → keysClean st'.
Proof.
  unfold loopBody, strings.SplitN2, keysClean.
  intros Hbody [Hres Hkey].
  assert (∀ (k : string) v (m : gmap string string),
            strings.ContainsByte k "="%char = false →
            (∀ key, is_Some (m !! key) → strings.ContainsByte key "="%char = false) →
            ∀ key, is_Some (<[k := v]> m !! key) →
                   strings.ContainsByte key "="%char = false) as Hins.
  { intros k v m Hk Hm key. destruct (decide (k = key)) as [<-|Hne]; [done|].
    rewrite lookup_insert_ne by done. apply Hm. }
  destruct (0 <? String.length (multilineKey st))%nat.
  - destruct (cutBlockLine line) as [l []]; injection Hbody as <-; cbn.
    + split; [by apply Hins|done].
    + done.
  - destruct (strings.Cut line "="%char) as [[key value]|] eqn:Hcut; [|done].
    apply Cut_Some in Hcut as [_ Hclean].
    destruct (strings.CutPrefix value "`") as [part []].
    + destruct (cutBlockLine part) as [l []]; injection Hbody as <-; cbn.
      * split; [by apply Hins|done].
      * done.
    + injection Hbody as <-; cbn. split; [by apply Hins|done].
Qed.

Lemma rangeLines_keysClean lines : ∀ i st st',
  rangeLines i lines st = Ok st' → keysClean st → keysClean st'.
Proof.
  induction lines as [|line lines IH]; intros i st st'; cbn.
  - by intros [= <-].
  - destruct (loopBody i line st) as [st1|] eqn:Hbody; [|done].
    intros Hrest Hclean. apply (IH _ _ _ Hrest).
    by apply (loopBody_keysClean i line st).
Qed.

(** X2. No key of a mapping the parser returns contains a separator. *)
Theorem parse_keys_have_no_separator data mapping key :
  parseKeyValuePairs data = Ok mapping →
  is_Some (mapping !! key) →
  strings.ContainsByte key "="%char = false.
Proof.
  intros (_ & st & Hrun & _ & <-)%parseKeyValuePairs_Ok.
  apply (rangeLines_keysClean _ _ _ _ Hrun). split; [|done].
  intros k. cbn. rewrite lookup_empty. by intros [? ?].
Qed.

Lemma parse_keys_have_no_separator_witness :
  strings.ContainsByte "a" "="%char = false.
Proof.
  apply (parse_keys_have_no_separator ("a=b=c" +:+ LF +:+ "d==")
           {[ "a" := "b=c"; "d" := "=" ]} "a").
  - vm_compute. reflexivity.
  - vm_compute. eauto.
Defined.

(** X3. A further key/value line after an input that parses adds its entry to
    the mapping of that input, over an earlier entry of the same key. *)
Theorem parse_append_line data mapping key value :
  parseKeyValuePairs data = Ok mapping →
  strings.ContainsByte key "="%char = false →
  strings.ContainsByte (key +:+ String "="%char value) "010"%char = false →
  strings.HasPrefix value "`" = false →
  parseKeyValuePairs (data +:+ String "010"%char (key +:+ String "="%char value))
  = Ok (<[key := value]> mapping).
Proof.
  intros (Hne & st & Hrun & Hkey & <-)%parseKeyValuePairs_Ok Hclean Hnl Hvalue.
  rewrite parseKeyValuePairs_lines; rewrite Split_app_LF, (Split_no_LF _ Hnl).
  - rewrite rangeLines_app, Hrun. cbn [rangeLines].
    unfold loopBody, strings.SplitN2. rewrite Hkey, (Cut_app _ _ _ Hclean). cbn.
    unfold strings.CutPrefix. by rewrite Hvalue.
  - pose proof (Split_nonempty data "010"%char) as Hs.
    by destruct (strings.Split data "010"%char) as [|? [|? ?]].
Qed.

Lemma parse_append_line_witness :
  parseKeyValuePairs (("a=1" +:+ LF +:+ "b=2") +:+ String "010"%char
                      ("a" +:+ String "="%char "3"))
  = Ok (<["a" := "3"]> {[ "a" := "1"; "b" := "2" ]}).
Proof.
  apply (parse_append_line ("a=1" +:+ LF +:+ "b=2") {[ "a" := "1"; "b" := "2" ]}
           "a" "3"); vm_compute; reflexivity.
Defined.

(** X4. An input that parses stops parsing when a line feed is put after it:
    the empty last line is reported as the line without separator. *)
Theorem parse_trailing_newline_rejected data mapping :
  parseKeyValuePairs data = Ok mapping →
  parseKeyValuePairs (data +:+ LF)
  = Err (errorString ("Missing '=' at line: "
                      +:+ itoa (length (strings.Split data "010"%char)))).
Proof.
  intros (Hne & st & Hrun & Hkey & _)%parseKeyValuePairs_Ok.
  unfold LF.
  rewrite parseKeyValuePairs_lines; rewrite Split_app_LF.
  - rewrite rangeLines_app, Hrun. cbn [strings.Split rangeLines].
    unfold loopBody. by rewrite Hkey.
  - pose proof (Split_nonempty data "010"%char) as Hs.
    by destruct (strings.Split data "010"%char) as [|? [|? ?]].
Qed.

Lemma parse_trailing_newline_rejected_witness :
  parseKeyValuePairs ("a=1" +:+ LF) = Err (errorString "Missing '=' at line: 1").
Proof.
  apply (parse_trailing_newline_rejected "a=1" {[ "a" := "1" ]}).
  vm_compute. reflexivity.
Defined.

Lemma parseKeyValuePairs_refines_witness :
  parseKeyValuePairs ("a=1" +:+ LF +:+ "b=`x" +:+ LF +:+ "y`")
  = ValueParser.toResult
      (ValueParser.parse ("a=1" +:+ LF +:+ "b=`x" +:+ LF +:+ "y`")).
Proof.
  apply parseKeyValuePairs_refines. vm_compute. repeat constructor.
Defined.

End parser_more.

(** * Further properties of package [sealedsecret] *)

(** ** The allow-list *)
Section allowlist_facts.

Context (TrimFunc_IsSpace TrimRightFunc_IsSpace : string → string).

Lemma toStringSet_fold (values : list string) : ∀ (acc : gset string) (x : string),
  x ∈ foldl (λ (results : gset string) value,
               let value := strings.TrimSpace TrimFunc_IsSpace
                              TrimRightFunc_IsSpace value in
               if String.eqb value "" then results else {[ value ]} ∪ results)
            acc values
  ↔ x ∈ acc
    ∨ (x ≠ "" ∧ ∃ value, value ∈ values
         ∧ strings.TrimSpace TrimFunc_IsSpace TrimRightFunc_IsSpace value = x).
Proof.
  induction values as [|v values IH]; intros acc x; cbn [foldl].
  - split; [by left|]. intros [?|(_ & value & Hin & _)]; [done|].
    by apply not_elem_of_nil in Hin.
  - rewrite IH. cbn zeta.
    destruct (String.eqb_spec
                (strings.TrimSpace TrimFunc_IsSpace TrimRightFunc_IsSpace v) "")
      as [Hv|Hv].
    + split.
      * intros [?|(Hx & value & Hin & Htrim)]; [by left|].
        right. split; [done|]. exists value. split; [by right|done].
      * intros [?|(Hx & value & Hin & Htrim)]; [by left|].
        apply elem_of_cons in Hin as [->|Hin]; [congruence|].
        right. split; [done|]. by exists value.
    + rewrite elem_of_union, elem_of_singleton. split.
      * intros [[->|?]|(Hx & value & Hin & Htrim)].
        -- right. split; [done|]. exists v. split; [by left|done].
        -- by left.
        -- right. split; [done|]. exists value. split; [by right|done].
      * intros [?|(Hx & value & Hin & Htrim)]; [by left; right|].
        apply elem_of_cons in Hin as [->|Hin]; [by left; left|].
        right. split; [done|]. by exists value.
Qed.

(** X6. The allow-list holds exactly the trimmed entries that are not empty
    once trimmed; the empty string is never on it. *)
Theorem toStringSet_elem_of (values : list string) (x : string) :
  x ∈ toStringSet TrimFunc_IsSpace TrimRightFunc_IsSpace values
  ↔ x ≠ ""
    ∧ ∃ value, value ∈ values
        ∧ strings.TrimSpace TrimFunc_IsSpace TrimRightFunc_IsSpace value = x.
Proof.
  unfold toStringSet. rewrite toStringSet_fold. split; [|by right].
  intros [Hin|?]; [|done]. by apply not_elem_of_empty in Hin.
Qed.

(** the case of the package's own test *)
Example toStringSet_test :
  toStringSet TrimFunc_IsSpace TrimRightFunc_IsSpace
    [ "argocd.argoproj.io/sync-wave"; "  argocd.argoproj.io/sync-wave  ";
      " custom.example/key "; "" ]
  = {[ "argocd.argoproj.io/sync-wave"; "custom.example/key" ]}.
Proof. vm_compute. reflexivity. Qed.

End allowlist_facts.

(** ** Annotations *)
Section annotation_more.

Context {PublicKey Rand : Type}.
Context (hybridEncrypt : Rand → PublicKey → string → string → Result string).
Context (getPublicKey : SealedSecretService → Result PublicKey).
Context (yamlMarshal : SealedSecret (gmap string string) → Result string).

Implicit Types (rt : Runtime Rand) (s : SealedSecretService) (opts : CreateOpts).

(** X7. What [getSealedSecretAnnotations] returns is the stored annotation set
    cut down to the keys of the allow-list. *)
Theorem preserved_is_allowlisted_stored s namespace secretName preserved :
  getSealedSecretAnnotations s namespace secretName = Ok preserved →
  preserved
  = filter (λ kv, kv.1 ∈ annotationsToPreserve s)
           (storedAnnotations s namespace secretName).
Proof.
  intros Hok. apply map_eq. intros key.
  rewrite (getSealedSecretAnnotations_Ok _ _ _ _ key Hok), map_lookup_filter.
  destruct (storedAnnotations s namespace secretName !! key) as [value|]; cbn.
  - case_decide.
    + by rewrite option_guard_True.
    + by rewrite option_guard_False.
  - by case_decide.
Qed.

(** X8. The keys [isScopeAnnotation] recognises are the keys
    [getScopeAnnotations] can put, and no other. *)
Theorem isScopeAnnotation_iff_produced key :
  isScopeAnnotation key = true
  ↔ ∃ scope, is_Some (scopeAnnotationSet scope !! key).
Proof.
  split.
  - unfold isScopeAnnotation.
    intros [->%String.eqb_eq| ->%String.eqb_eq]%orb_true_iff.
    + exists "cluster". by eexists.
    + exists "namespace". by eexists.
  - intros [scope [value Hvalue]].
    destruct (isScopeAnnotation key) eqn:Hkey; [done|].
    by rewrite (scopeAnnotationSet_only_scope_keys scope key Hkey) in Hvalue.
Qed.

(** X9. The annotations of the template are among those of the metadata: the
    overlay adds to the scope annotations and replaces none of them. *)
Theorem template_annotations_within_metadata rt s opts (h : heap) doc :
  sealedRecord hybridEncrypt getPublicKey rt s opts h = Ok doc →
  Annotations (TemplateMetadata (SpecTemplate (Spec doc)))
  ⊆ Annotations (SealedMetadata doc).
Proof.
  intros Hdoc.
  destruct (sealedRecord_annotations hybridEncrypt getPublicKey rt s opts h doc Hdoc)
    as (preserved & _ & -> & Hkeys).
  apply map_subseteq_spec. intros key value Hvalue. rewrite Hkeys.
  destruct (isScopeAnnotation key) eqn:Hkey; [done|].
  by rewrite (scopeAnnotationSet_only_scope_keys _ key Hkey) in Hvalue.
Qed.

End annotation_more.

(** ** The store and the secret data *)
Section store_more.

Implicit Types (h : heap).

(** X10. The copy and its source are independent: a write to either leaves the
    other with the entries the source had. *)
Theorem copyStringMap_independent source h key value :
  source < length h →
  let '(results, h') := copyStringMap source h in
  deref h' results = deref h source
  ∧ deref (mapassign results key value h') source = deref h source
  ∧ deref (mapassign source key value h') results = deref h source.
Proof.
  intros Hsource. pose proof (copyStringMap_spec source h) as Hspec.
  destruct (copyStringMap source h) as [results h'].
  destruct Hspec as (-> & Hlen & Hcopied & Hkept).
  split; [done|]. split.
  - rewrite deref_mapassign_other by lia. apply Hkept. lia.
  - rewrite deref_mapassign_other by lia. done.
Qed.

Lemma decodeSecret_fmap (secretData : gmap string (list Byte.byte)) :
  decodeSecret secretData = string_of_list_byte <$> secretData.
Proof.
  unfold decodeSecret.
  apply (map_fold_weak_ind
           (λ (data : gmap string string) (m : gmap string (list Byte.byte)),
              data = string_of_list_byte <$> m)).
  - by rewrite fmap_empty.
  - intros key value m data _ ->. by rewrite fmap_insert.
Qed.

(** X11. Decoding keeps every key with its value converted, and the bytes can be
    read back from the decoded data. *)
Theorem decodeSecret_round_trip (secretData : gmap string (list Byte.byte)) key :
  decodeSecret secretData !! key = string_of_list_byte <$> secretData !! key
  ∧ list_byte_of_string <$> decodeSecret secretData = secretData.
Proof.
  rewrite decodeSecret_fmap. split; [apply lookup_fmap|].
  rewrite <- map_fmap_compose. rewrite <- (map_fmap_id secretData) at 2.
  apply map_fmap_ext. intros k value _. cbn.
  apply list_byte_of_string_of_list_byte.
Qed.

End store_more.

Lemma copyStringMap_independent_witness :
  let '(results, h') := copyStringMap 0 [ {[ "a" := "1" ]} ] in
  deref h' results = deref [ {[ "a" := "1" ]} ] 0
  ∧ deref (mapassign results "b" "2" h') 0 = deref [ {[ "a" := "1" ]} ] 0
  ∧ deref (mapassign 0 "b" "2" h') results = deref [ {[ "a" := "1" ]} ] 0.
Proof.
  apply (copyStringMap_independent 0 [ {[ "a" := "1" ]} ] "b" "2"). cbn. lia.
Defined.

Lemma preserved_is_allowlisted_stored_witness :
  ({[ "sealedsecrets.bitnami.com/namespace-wide" := "true"; "owner" := "team-x" ]}
     : gmap string string)
  = filter (λ kv, kv.1 ∈ annotationsToPreserve ownedCluster)
           (storedAnnotations ownedCluster "prod" "db").
Proof.
  apply (preserved_is_allowlisted_stored ownedCluster "prod" "db").
  vm_compute. reflexivity.
Defined.

Lemma ownedNamespaceRecord_sealed :
  sealedRecord stubEncrypt stubPublicKey stubRuntime ownedCluster
    (namespaceRequest {[ "a" := "1" ]}) [] = Ok ownedNamespaceRecord.
Proof. vm_compute. reflexivity. Defined.

Lemma template_annotations_within_metadata_witness :
  Annotations (TemplateMetadata (SpecTemplate (Spec ownedNamespaceRecord)))
  ⊆ Annotations (SealedMetadata ownedNamespaceRecord).
Proof.
  apply (template_annotations_within_metadata stubEncrypt stubPublicKey
           stubRuntime ownedCluster (namespaceRequest {[ "a" := "1" ]}) []
           ownedNamespaceRecord ownedNamespaceRecord_sealed).
Defined.

(** ** Errors and results of the pipeline *)
Section pipeline_more.

Context {PublicKey Rand : Type}.
Context (hybridEncrypt : Rand → PublicKey → string → string → Result string).
Context (getPublicKey : SealedSecretService → Result PublicKey).
Context (yamlMarshal : SealedSecret (gmap string string) → Result string).

Implicit Types (rt : Runtime Rand) (s : SealedSecretService) (opts : CreateOpts).
Implicit Types (req : encryptRequest PublicKey) (h : heap).

Lemma IsNotFound_false_reason err :
  IsNotFound (Some err) = false → ReasonForError err ≠ "NotFound".
Proof.
  cbn. intros [Hreason _]%orb_false_elim. by apply String.eqb_neq.
Qed.

Lemma getSealedSecretAnnotations_Err s namespace secretName err :
  getSealedSecretAnnotations s namespace secretName = Err err
  ↔ annotationsToPreserve s ≠ ∅
    ∧ SealedSecretsGet (dynamicClient s) namespace secretName = Err err
    ∧ IsNotFound (Some err) = false.
Proof.
  unfold getSealedSecretAnnotations.
  destruct (size (annotationsToPreserve s) =? 0)%nat eqn:Hsize.
  - apply Nat.eqb_eq, size_empty_iff, leibniz_equiv in Hsize.
    split; [done|]. by intros [? _].
  - apply Nat.eqb_neq in Hsize.
    assert (annotationsToPreserve s ≠ ∅) as Hallow
      by (intros Hempty; apply Hsize; by rewrite Hempty, size_empty).
    destruct (SealedSecretsGet (dynamicClient s) namespace secretName)
      as [sealedSecret|e].
    + split; [|by intros (_ & ? & _)].
      by destruct (size (GetAnnotations sealedSecret) =? 0)%nat.
    + destruct (IsNotFound (Some e)) eqn:Hnf.
      * split; [done|]. intros (_ & [= ->] & Hne). congruence.
      * split; [by intros [= ->]|]. by intros (_ & [= ->] & _).
Qed.

(** X12. With an allow-list, a read of the sealed secret that fails with an
    error [apierrors.IsNotFound] does not take for absence fails the call. *)
Theorem sealed_secret_read_failure_fails rt s opts h err :
  annotationsToPreserve s ≠ ∅ →
  SealedSecretsGet (dynamicClient s) (Namespace opts) (SecretName opts) = Err err →
  IsNotFound (Some err) = false →
  isErr (CreateSealedSecret hybridEncrypt getPublicKey yamlMarshal rt s opts h)
  = true.
Proof.
  intros Hallow Hget Hreason.
  assert (getSealedSecretAnnotations s (Namespace opts) (SecretName opts) = Err err)
    as Hann by (by apply getSealedSecretAnnotations_Err).
  unfold CreateSealedSecret, sealedRecord, assembleSealedSecret.
  destruct (getSecretData _ _ _) as [existingData|]; [|done].
  destruct (getPublicKey s) as [pk|]; [|done].
  destruct (encryptValues _ _ _ _) as [encryptedData|]; [|done].
  destruct (getScopeAnnotations _ h) as [scopeAnnotations h1].
  destruct (copyStringMap scopeAnnotations h1) as [target h2].
  by rewrite Hann.
Qed.

Lemma encryptLoop_Err rt s req : ∀ todo i acc err,
  encryptLoop hybridEncrypt rt s req i todo acc = Err err →
  ∃ j key value e,
    todo !! j = Some (key, value)
    ∧ hybridEncrypt (entropy rt (i + j)) (pubKey req) value (getLabel s req) = Err e
    ∧ err = Errorf_w "failed to encrypt value" e.
Proof.
  induction todo as [|[k v] todo IH]; intros i acc err; cbn [encryptLoop]; [done|].
  destruct (hybridEncrypt (entropy rt i) (pubKey req) v (getLabel s req))
    as [enc|e] eqn:Henc.
  - intros (j & key & value & e & Hj & Hfail & ->)%IH.
    exists (S j), key, value, e. by rewrite <- Nat.add_succ_comm.
  - intros [= <-]. exists 0, k, v, e. by rewrite Nat.add_0_r.
Qed.

(** X13. [CreateSealedSecret] has four errors and no other, each wrapping the
    error of the step that failed: the fetch of the public key, the
    encryption of one of the merged values, the read of the sealed secret
    (with an allow-list, and not for absence), and the rendering.  The read
    of the stored secret is not among them. *)
Theorem CreateSealedSecret_error_kinds rt s opts h err :
  CreateSealedSecret hybridEncrypt getPublicKey yamlMarshal rt s opts h = Err err →
  (∃ e, getPublicKey s = Err e ∧ err = Errorf_w "failed to get public key" e)
  ∨ (∃ e pk existingData j key value,
       getPublicKey s = Ok pk
       ∧ getSecretData s (Namespace opts) (SecretName opts) = Ok existingData
       ∧ rangeOrder rt (valuesToEncrypt existingData (Values opts)) !! j
         = Some (key, value)
       ∧ hybridEncrypt (entropy rt j) pk value
           (getLabel s (requestOf opts existingData pk)) = Err e
       ∧ err = Errorf_w "failed to encrypt value" e)
  ∨ (∃ e, annotationsToPreserve s ≠ ∅
          ∧ SealedSecretsGet (dynamicClient s) (Namespace opts) (SecretName opts)
            = Err e
          ∧ ReasonForError e ≠ "NotFound"
          ∧ err = Errorf_w "failed to get existing sealed-secret annotations" e)
  ∨ (∃ e doc, sealedRecord hybridEncrypt getPublicKey rt s opts h = Ok doc
              ∧ yamlMarshal doc = Err e
              ∧ err = Errorf_w "failed to marshal sealed secret to YAML" e).
Proof.
  unfold CreateSealedSecret.
  destruct (sealedRecord hybridEncrypt getPublicKey rt s opts h) as [doc|err0]
    eqn:Hrec.
  - destruct (yamlMarshal doc) as [|e] eqn:Hyaml; [done|].
    intros [= <-]. do 3 right. by exists e, doc.
  - intros [= ->]. revert Hrec. unfold sealedRecord, assembleSealedSecret.
    destruct (getSecretData_returns s (Namespace opts) (SecretName opts))
      as [existingData Hdata].
    rewrite Hdata. destruct (getPublicKey s) as [pk|e] eqn:Hkey.
    + fold (requestOf opts existingData pk).
      destruct (encryptValues _ _ _ _) as [encryptedData|e] eqn:Henc.
      * destruct (getScopeAnnotations _ h) as [scopeAnnotations h1].
        destruct (copyStringMap scopeAnnotations h1) as [target h2].
        destruct (getSealedSecretAnnotations _ _ _) as [|e] eqn:Hann; [done|].
        intros [= <-]. right. right. left.
        apply getSealedSecretAnnotations_Err in Hann as (? & ? & ?%IsNotFound_false_reason).
        by exists e.
      * intros [= <-]. right. left.
        apply encryptLoop_Err in Henc as (j & key & value & e' & Hj & Hfail & ->).
        by exists e', pk, existingData, j, key, value.
    + intros [= <-]. left. by exists e.
Qed.

Lemma encryptLoop_lookup_other rt s req : ∀ todo i acc encryptedData key,
  encryptLoop hybridEncrypt rt s req i todo acc = Ok encryptedData →
  key ∉ todo.*1 →
  encryptedData !! key = acc !! key.
Proof.
  induction todo as [|[k v] todo IH]; intros i acc encryptedData key;
    cbn [encryptLoop].
  - by intros [= <-].
  - destruct (hybridEncrypt _ _ _ _) as [enc|]; [|done].
    intros Hrest [Hk Hkey]%not_elem_of_cons.
    rewrite (IH _ _ _ _ Hrest Hkey). by rewrite lookup_insert_ne.
Qed.

Lemma encryptLoop_lookup rt s req : ∀ todo i acc encryptedData j key value,
  NoDup todo.*1 →
  encryptLoop hybridEncrypt rt s req i todo acc = Ok encryptedData →
  todo !! j = Some (key, value) →
  ∃ enc, hybridEncrypt (entropy rt (i + j)) (pubKey req) value (getLabel s req)
         = Ok enc
         ∧ encryptedData !! key = Some enc.
Proof.
  induction todo as [|[k v] todo IH]; intros i acc encryptedData j key value;
    cbn [encryptLoop]; [done|].
  intros [Hk Hnodup]%NoDup_cons.
  destruct (hybridEncrypt (entropy rt i) (pubKey req) v (getLabel s req))
    as [enc|] eqn:Henc; [|done].
  intros Hrest. destruct j as [|j].
  - intros [= <- <-]. rewrite Nat.add_0_r. exists enc. split; [done|].
    rewrite (encryptLoop_lookup_other _ _ _ _ _ _ _ k Hrest Hk).
    by rewrite lookup_insert_eq.
  - intros Hj. rewrite <- Nat.add_succ_comm. by apply (IH _ _ _ _ _ _ Hnodup Hrest).
Qed.

(** X14. In the record that is returned, the encrypted data holds, under every
    key of the merged values, the sealing of that key's merged value under
    the label of the request, made at one turn of the loop; it holds nothing
    under any other key. *)
Theorem encrypted_data_seals_merged_values rt s opts h existingData pk doc key :
  fairRange rt →
  getSecretData s (Namespace opts) (SecretName opts) = Ok existingData →
  getPublicKey s = Ok pk →
  sealedRecord hybridEncrypt getPublicKey rt s opts h = Ok doc →
  match valuesToEncrypt existingData (Values opts) !! key with
  | Some value =>
      ∃ j enc,
        j < size (valuesToEncrypt existingData (Values opts))
        ∧ hybridEncrypt (entropy rt j) pk value
            (getLabel s (requestOf opts existingData pk)) = Ok enc
        ∧ EncryptedData (Spec doc) !! key = Some enc
  | None => EncryptedData (Spec doc) !! key = None
  end.
Proof.
  intros Hfair Hdata Hkey. unfold sealedRecord, assembleSealedSecret.
  rewrite Hdata, Hkey. fold (requestOf opts existingData pk).
  destruct (encryptValues _ _ _ _) as [encryptedData|] eqn:Henc; [|done].
  destruct (getScopeAnnotations _ h) as [scopeAnnotations h1].
  destruct (copyStringMap scopeAnnotations h1) as [target h2].
  destruct (getSealedSecretAnnotations _ _ _) as [preserved|]; [|done].
  intros [= <-]. cbn.
  unfold encryptValues in Henc. cbn [values requestOf] in Henc.
  set (merged := valuesToEncrypt existingData (Values opts)) in *.
  pose proof (Hfair merged) as Hperm.
  destruct (merged !! key) as [value|] eqn:Hvalue.
  - assert ((key, value) ∈ rangeOrder rt merged) as Hin
      by (rewrite Hperm; by apply elem_of_map_to_list).
    apply list_elem_of_lookup_1 in Hin as [j Hj].
    assert (NoDup (rangeOrder rt merged).*1) as Hnodup
      by (rewrite Hperm; apply NoDup_fst_map_to_list).
    destruct (encryptLoop_lookup rt s _ _ 0 ∅ _ j key value Hnodup Henc Hj)
      as (enc & Hsealed & Hlookup).
    exists j, enc. split; [|done].
    apply lookup_lt_Some in Hj. by rewrite Hperm, length_map_to_list in Hj.
  - rewrite (encryptLoop_lookup_other rt s _ _ 0 ∅ _ key Henc); [done|].
    rewrite Hperm. intros ([k v] & -> & Hin%elem_of_map_to_list)%list_elem_of_fmap.
    cbn in Hvalue. congruence.
Qed.

(** X15. The annotation maps of the assembled record, the template's and
    the metadata's, are two different maps and neither is a map that was
    there before the call; no map that was there before is written to. *)
Theorem assembleSealedSecret_frame rt s opts h sealedSecret h' :
  assembleSealedSecret hybridEncrypt getPublicKey rt s opts h
  = Ok (sealedSecret, h') →
  Annotations (TemplateMetadata (SpecTemplate (Spec sealedSecret)))
  ≠ Annotations (SealedMetadata sealedSecret)
  ∧ (∀ r, r < length h →
       r ≠ Annotations (TemplateMetadata (SpecTemplate (Spec sealedSecret)))
       ∧ r ≠ Annotations (SealedMetadata sealedSecret)
       ∧ deref h' r = deref h r).
Proof.
  unfold assembleSealedSecret.
  destruct (getSecretData _ _ _) as [existingData|]; [|done].
  destruct (getPublicKey s) as [pk|]; [|done].
  destruct (encryptValues _ _ _ _) as [encryptedData|]; [|done].
  cbn [scope]. rewrite getScopeAnnotations_alloc. unfold alloc at 1.
  set (h1 := (h ++ [scopeAnnotationSet (Scope opts)])%list).
  pose proof (copyStringMap_spec (length h) h1) as Hcopy.
  destruct (copyStringMap (length h) h1) as [target h2].
  destruct Hcopy as (Htarget & Hlen2 & _ & Hkept).
  assert (length h1 = S (length h)) as Hlen1
    by (unfold h1; rewrite length_app; cbn; lia).
  destruct (getSealedSecretAnnotations _ _ _) as [preserved|]; [|done].
  intros [= <- <-].
  destruct (overlayPreserved_spec target preserved h2) as (Hlen3 & Hother & _);
    [lia|].
  cbn. split; [lia|].
  intros r Hr. split; [lia|]. split; [lia|].
  rewrite Hother by lia. rewrite Hkept by lia.
  apply (deref_alloc_old (scopeAnnotationSet (Scope opts)) h). lia.
Qed.

End pipeline_more.

Lemma sealed_secret_read_failure_fails_witness :
  isErr (CreateSealedSecret stubEncrypt stubPublicKey stubMarshal stubRuntime
           forbiddenCluster (strictRequest {[ "a" := "1" ]}) []) = true.
Proof.
  apply (sealed_secret_read_failure_fails stubEncrypt stubPublicKey stubMarshal
           stubRuntime forbiddenCluster (strictRequest {[ "a" := "1" ]}) []
           (StatusError "Forbidden" 403 "sealedsecrets.bitnami.com is forbidden")).
  - intros Hempty. apply (f_equal size) in Hempty. vm_compute in Hempty.
    discriminate Hempty.
  - reflexivity.
  - vm_compute. reflexivity.
Defined.

Lemma CreateSealedSecret_error_kinds_witness :
  let opts := strictRequest {[ "a" := "1"; "b" := "unsealable" ]} in
  let err := Errorf_w "failed to encrypt value" (errorString "rsa: message too long") in
  (∃ e, stubPublicKey emptyCluster = Err e
        ∧ err = Errorf_w "failed to get public key" e)
  ∨ (∃ e pk existingData j key value,
       stubPublicKey emptyCluster = Ok pk
       ∧ getSecretData emptyCluster (Namespace opts) (SecretName opts)
         = Ok existingData
       ∧ rangeOrder stubRuntime (valuesToEncrypt existingData (Values opts)) !! j
         = Some (key, value)
       ∧ stubEncrypt (entropy stubRuntime j) pk value
           (getLabel emptyCluster (requestOf opts existingData pk)) = Err e
       ∧ err = Errorf_w "failed to encrypt value" e)
  ∨ (∃ e, annotationsToPreserve emptyCluster ≠ ∅
          ∧ SealedSecretsGet (dynamicClient emptyCluster) (Namespace opts)
              (SecretName opts) = Err e
          ∧ ReasonForError e ≠ "NotFound"
          ∧ err = Errorf_w "failed to get existing sealed-secret annotations" e)
  ∨ (∃ e doc, sealedRecord stubEncrypt stubPublicKey stubRuntime emptyCluster
                opts [] = Ok doc
              ∧ stubMarshal doc = Err e
              ∧ err = Errorf_w "failed to marshal sealed secret to YAML" e).
Proof.
  cbn zeta.
  apply (CreateSealedSecret_error_kinds stubEncrypt stubPublicKey stubMarshal
           stubRuntime emptyCluster).
  vm_compute. reflexivity.
Defined.

Lemma storedRecord_sealed :
  sealedRecord stubEncrypt stubPublicKey stubRuntime storedCluster
    (strictRequest {[ "a" := "1" ]}) [] = Ok storedRecord.
Proof. vm_compute. reflexivity. Defined.

Lemma encrypted_data_seals_merged_values_witness :
  ∃ j enc,
    j < size (valuesToEncrypt {[ "old" := "pw" ]} {[ "a" := "1" ]})
    ∧ stubEncrypt (entropy stubRuntime j) tt "pw"
        (getLabel storedCluster
           (requestOf (strictRequest {[ "a" := "1" ]}) {[ "old" := "pw" ]} tt))
      = Ok enc
    ∧ EncryptedData (Spec storedRecord) !! "old" = Some enc.
Proof.
  pose proof (encrypted_data_seals_merged_values stubEncrypt stubPublicKey
                stubRuntime storedCluster (strictRequest {[ "a" := "1" ]}) []
                {[ "old" := "pw" ]} tt storedRecord "old") as Hsealed.
  assert (valuesToEncrypt {[ "old" := "pw" ]}
            (Values (strictRequest {[ "a" := "1" ]})) !! "old" = Some "pw")
    as Hold by (vm_compute; reflexivity).
  rewrite Hold in Hsealed. apply Hsealed.
  - intros m. reflexivity.
  - vm_compute. reflexivity.
  - reflexivity.
  - exact storedRecord_sealed.
Defined.

Lemma assembleSealedSecret_frame_witness :
  match assembleSealedSecret stubEncrypt stubPublicKey stubRuntime ownedCluster
          (namespaceRequest {[ "a" := "1" ]}) [ {[ "kept" := "yes" ]} ] with
  | Ok (sealedSecret, h') =>
      Annotations (TemplateMetadata (SpecTemplate (Spec sealedSecret)))
      ≠ Annotations (SealedMetadata sealedSecret)
      ∧ ∀ r, r < 1 →
          r ≠ Annotations (TemplateMetadata (SpecTemplate (Spec sealedSecret)))
          ∧ r ≠ Annotations (SealedMetadata sealedSecret)
          ∧ deref h' r = deref [ {[ "kept" := "yes" ]} ] r
  | Err _ => False
  end.
Proof.
  destruct (assembleSealedSecret stubEncrypt stubPublicKey stubRuntime ownedCluster
              (namespaceRequest {[ "a" := "1" ]}) [ {[ "kept" := "yes" ]} ])
    as [[sealedSecret h']|err] eqn:Hrun.
  - apply (assembleSealedSecret_frame stubEncrypt stubPublicKey stubRuntime
             ownedCluster (namespaceRequest {[ "a" := "1" ]})
             [ {[ "kept" := "yes" ]} ] sealedSecret h' Hrun).
  - vm_compute in Hrun. discriminate Hrun.
Defined.

(** ** Listing *)
Section listing_facts.

Lemma ascii_compare_refl (a : ascii) : Ascii.compare a a = Eq.
Proof. unfold Ascii.compare. apply N.compare_refl. Qed.

Lemma ascii_compare_Lt_trans (a b c : ascii) :
  Ascii.compare a b = Lt → Ascii.compare b c = Lt → Ascii.compare a c = Lt.
Proof.
  unfold Ascii.compare. rewrite !N.compare_lt_iff. apply N.lt_trans.
Qed.

Lemma String_leb_trans (s t u : string) :
  String.leb s t = true → String.leb t u = true → String.leb s u = true.
Proof.
  unfold String.leb. revert t u.
  induction s as [|a s IH]; intros [|b t] [|c u]; cbn; try done.
  destruct (Ascii.compare a b) eqn:Hab; [| |done];
    (destruct (Ascii.compare b c) eqn:Hbc; [| |done]).
  - apply Ascii.compare_eq_iff in Hab as ->.
    apply Ascii.compare_eq_iff in Hbc as ->.
    rewrite ascii_compare_refl. apply IH.
  - apply Ascii.compare_eq_iff in Hab as ->. by rewrite Hbc.
  - apply Ascii.compare_eq_iff in Hbc as <-. by rewrite Hab.
  - by rewrite (ascii_compare_Lt_trans a b c).
Qed.

#[local] Instance string_le_trans : Transitive sort.string_le.
Proof. intros s t u. apply String_leb_trans. Qed.

#[local] Instance string_le_antisym : AntiSymm (=) sort.string_le.
Proof. intros s t. apply String.leb_antisym. Qed.

#[local] Instance string_le_total : Total sort.string_le.
Proof. intros s t. apply String.leb_total. Qed.

(** [sort.Strings] gives the sorted arrangement of its argument, and there
    is no other. *)
Lemma Strings_sorted (x names : list string) :
  names = sort.Strings x ↔ Sorted sort.string_le names ∧ names ≡ₚ x.
Proof.
  unfold sort.Strings. split.
  - intros ->. split; [apply Sorted_merge_sort, _|apply merge_sort_Permutation].
  - intros [Hsorted Hperm]. apply (Sorted_unique sort.string_le); [done| |].
    + apply Sorted_merge_sort, _.
    + by rewrite Hperm, merge_sort_Permutation.
Qed.

(** X16. [ListNamespaces] hands on the error of the cluster; without error it
    returns the names in ascending byte order, each as often as it was
    listed. *)
Theorem ListNamespaces_sorted (c : CoreV1Lists) :
  match NamespacesList c with
  | (namespaces, None) =>
      ∃ names, ListNamespaces c = Ok names
               ∧ Sorted sort.string_le names ∧ names ≡ₚ namespaces
  | (_, Some err) => ListNamespaces c = Err err
  end.
Proof.
  unfold ListNamespaces, listNamespaces.
  destruct (NamespacesList c) as [namespaces [err|]]; [done|].
  exists (sort.Strings namespaces). split; [done|]. by apply Strings_sorted.
Qed.

(** X17. For a namespace that is named and can be listed, [ListSecretNames]
    returns the secret names in ascending byte order, each as often as it
    was listed. *)
Theorem ListSecretNames_sorted (c : CoreV1Lists) namespace secrets :
  namespace ≠ "" →
  SecretsList c namespace = (secrets, None) →
  ∃ names, ListSecretNames c namespace = Ok names
           ∧ Sorted sort.string_le names ∧ names ≡ₚ secrets.
Proof.
  intros Hns%String.eqb_neq Hlist. unfold ListSecretNames, listSecretNames.
  rewrite Hns, Hlist. cbn.
  exists (sort.Strings secrets). split; [done|]. by apply Strings_sorted.
Qed.

(** X18. Without a namespace [ListSecretNames] returns the empty list whatever
    the cluster would say; when the listing fails it returns the empty list
    for a failure that [apierrors.IsNotFound] takes for absence (the
    not-found reason, or an unknown reason with the code 404) and the error
    itself for any other. *)
Theorem ListSecretNames_failures (c : CoreV1Lists) namespace secrets err :
  SecretsList c namespace = (secrets, Some err) →
  ListSecretNames c "" = Ok []
  ∧ ListSecretNames c namespace
    = if String.eqb namespace ""
         || String.eqb (ReasonForError err) "NotFound"
         || (negb (bool_decide (ReasonForError err ∈ knownReasons))
             && (CodeForError err =? 404)%nat)
      then Ok [] else Err err.
Proof.
  intros Hlist. unfold ListSecretNames, listSecretNames. split; [done|].
  destruct (String.eqb namespace ""); [done|]. rewrite Hlist.
  cbn [orb]. unfold IsNotFound.
  by destruct (String.eqb (ReasonForError err) "NotFound"
               || negb (bool_decide (ReasonForError err ∈ knownReasons))
                  && (CodeForError err =? 404)%nat).
Qed.

End listing_facts.

Lemma ListSecretNames_sorted_witness :
  ∃ names, ListSecretNames listedCluster "prod" = Ok names
           ∧ Sorted sort.string_le names ∧ names ≡ₚ ["tls"; "db"].
Proof.
  apply (ListSecretNames_sorted listedCluster "prod" ["tls"; "db"]).
  - discriminate.
  - reflexivity.
Defined.

Lemma ListSecretNames_failures_witness :
  ListSecretNames listedCluster "" = Ok []
  ∧ ListSecretNames listedCluster "dev"
    = Err (StatusError "Forbidden" 403 "secrets is forbidden")
  ∧ ListSecretNames listedCluster "ghost" = Ok [].
Proof.
  destruct (ListSecretNames_failures listedCluster "dev" []
              (StatusError "Forbidden" 403 "secrets is forbidden") eq_refl)
    as [Hempty Hforbidden].
  destruct (ListSecretNames_failures listedCluster "ghost" []
              (StatusError "" 404 "the server could not find the requested resource")
              eq_refl) as [_ Hghost].
  split; [exact Hempty|]. split; [exact Hforbidden|exact Hghost].
Defined.

(** ** The datalist markup *)
Section datalist_facts.

Lemma CountByte_app (a b : string) (c : ascii) :
  strings.CountByte (a +:+ b) c = strings.CountByte a c + strings.CountByte b c.
Proof.
  induction a as [|c' a IH].
  - by rewrite append_nil_l.
  - rewrite append_cons. cbn. rewrite IH. lia.
Qed.

(** The escaped text holds no angle bracket and no quote of either kind. *)
Lemma CountByte_EscapeString (s : string) (c : ascii) :
  c = "<"%char ∨ c = ">"%char ∨ c = "034"%char ∨ c = "'"%char →
  strings.CountByte (html.EscapeString s) c = 0.
Proof.
  intros Hc. induction s as [|c' s IH]; [done|].
  cbn [html.EscapeString]. rewrite CountByte_app, IH, Nat.add_0_r.
  unfold html.escapeByte.
  destruct (Ascii.eqb_spec c' "&"%char) as [->|H1];
    [by destruct Hc as [->|[->|[->| ->]]]|].
  destruct (Ascii.eqb_spec c' "'"%char) as [->|H2];
    [by destruct Hc as [->|[->|[->| ->]]]|].
  destruct (Ascii.eqb_spec c' "<"%char) as [->|H3];
    [by destruct Hc as [->|[->|[->| ->]]]|].
  destruct (Ascii.eqb_spec c' ">"%char) as [->|H4];
    [by destruct Hc as [->|[->|[->| ->]]]|].
  destruct (Ascii.eqb_spec c' "034"%char) as [->|H5];
    [by destruct Hc as [->|[->|[->| ->]]]|].
  cbn. destruct (Ascii.eqb_spec c' c) as [->|]; [|done].
  by destruct Hc as [->|[->|[->| ->]]].
Qed.

Lemma options_fold_count (options : list string) (c : ascii) : ∀ builder,
  c = "<"%char ∨ c = ">"%char ∨ c = "034"%char →
  strings.CountByte
    (foldl (λ builder option,
              let builder := WriteString builder ("<option value=" +:+ dquote) in
              let builder := WriteString builder (html.EscapeString option) in
              WriteString builder (dquote +:+ "></option>"))
           builder options) c
  = strings.CountByte builder c + 2 * length options.
Proof.
  induction options as [|option options IH]; intros builder Hc; cbn [foldl length].
  - lia.
  - rewrite IH by done. unfold WriteString. rewrite !CountByte_app.
    rewrite CountByte_EscapeString by tauto.
    destruct Hc as [->|[->| ->]]; cbn; lia.
Qed.

(** X19. Whatever the id and the options hold, [renderDatalist] adds to the body
    two angle brackets of each kind and two double quotes for the list and
    for each option: the structure of the markup does not depend on them. *)
Theorem datalist_markup_structure (w : ResponseWriter) (id : string)
    (options : list string) :
  let added c :=
    strings.CountByte (Body (renderDatalist w id options)) c
    - strings.CountByte (Body w) c in
  added "<"%char = 2 + 2 * length options
  ∧ added ">"%char = 2 + 2 * length options
  ∧ added "034"%char = 2 + 2 * length options.
Proof.
  cbn zeta. unfold renderDatalist, datalistMarkup. cbn [Body].
  unfold WriteString at 1 2 3 4.
  rewrite !CountByte_app, !options_fold_count by tauto.
  rewrite !CountByte_app, !CountByte_EscapeString by tauto.
  cbn. lia.
Qed.

End datalist_facts.

Lemma sealedRecord_returns_witness :
  ∃ doc, sealedRecord stubEncrypt stubPublicKey stubRuntime storedCluster
           (strictRequest {[ "a" := "1" ]}) [] = Ok doc.
Proof.
  apply (sealedRecord_returns stubEncrypt stubPublicKey stubRuntime storedCluster
           (strictRequest {[ "a" := "1" ]}) [] {[ "old" := "pw" ]} tt ∅).
  - vm_compute. reflexivity.
  - reflexivity.
  - intros j key value Hj. vm_compute in Hj.
    destruct j as [|[|j]]; [| |discriminate Hj];
      injection Hj as <- <-; eexists; vm_compute; reflexivity.
  - vm_compute. reflexivity.
Defined.

(** ** What is sealed *)
Section merge_sealed.

Context {PublicKey Rand : Type}.
Context (hybridEncrypt : Rand → PublicKey → string → string → Result string).
Context (getPublicKey : SealedSecretService → Result PublicKey).

Implicit Types (rt : Runtime Rand) (s : SealedSecretService) (opts : CreateOpts).

(** C8. The values [CreateSealedSecret] encrypts are the union of the stored
    and the submitted ones.  In the record that is returned, the encrypted
    data is what [encryptValues] made of the merged map; under a key that
    was submitted it holds the sealing of the submitted value, also when a
    value is stored under that key; under a key that is only stored it
    holds the sealing of the stored value; and it holds nothing under a key
    that is neither submitted nor stored. *)
Theorem plaintext_merge_sealed rt s opts (h : heap) existingData pk doc key :
  fairRange rt →
  getSecretData s (Namespace opts) (SecretName opts) = Ok existingData →
  getPublicKey s = Ok pk →
  sealedRecord hybridEncrypt getPublicKey rt s opts h = Ok doc →
  encryptValues hybridEncrypt rt s (requestOf opts existingData pk)
  = Ok (EncryptedData (Spec doc))
  ∧ values (requestOf opts existingData pk) !! key
    = match Values opts !! key with
      | Some value => Some value
      | None => existingData !! key
      end
  ∧ match Values opts !! key with
    | Some value =>
        ∃ j enc,
          hybridEncrypt (entropy rt j) pk value
            (getLabel s (requestOf opts existingData pk)) = Ok enc
          ∧ EncryptedData (Spec doc) !! key = Some enc
    | None =>
        match existingData !! key with
        | Some value =>
            ∃ j enc,
              hybridEncrypt (entropy rt j) pk value
                (getLabel s (requestOf opts existingData pk)) = Ok enc
              ∧ EncryptedData (Spec doc) !! key = Some enc
        | None => EncryptedData (Spec doc) !! key = None
        end
    end.
Proof.
  intros Hfair Hdata Hkey. unfold sealedRecord, assembleSealedSecret.
  rewrite Hdata, Hkey. fold (requestOf opts existingData pk).
  destruct (encryptValues _ _ _ _) as [encryptedData|] eqn:Henc; [|done].
  destruct (getScopeAnnotations _ h) as [scopeAnnotations h1].
  destruct (copyStringMap scopeAnnotations h1) as [target h2].
  destruct (getSealedSecretAnnotations _ _ _) as [preserved|]; [|done].
  intros [= <-]. cbn. split; [done|].
  unfold encryptValues in Henc. cbn [values requestOf] in Henc.
  set (merged := valuesToEncrypt existingData (Values opts)) in *.
  assert (merged !! key
          = match Values opts !! key with
            | Some value => Some value
            | None => existingData !! key
            end) as Hmerged.
  { unfold merged. rewrite valuesToEncrypt_union, lookup_union.
    by destruct (Values opts !! key), (existingData !! key). }
  split; [done|].
  pose proof (Hfair merged) as Hperm.
  assert (∀ value, merged !! key = Some value →
            ∃ j enc,
              hybridEncrypt (entropy rt j) pk value
                (getLabel s (requestOf opts existingData pk)) = Ok enc
              ∧ encryptedData !! key = Some enc) as Hsealed.
  { intros value Hvalue.
    assert ((key, value) ∈ rangeOrder rt merged) as Hin
      by (rewrite Hperm; by apply elem_of_map_to_list).
    apply list_elem_of_lookup_1 in Hin as [j Hj].
    assert (NoDup (rangeOrder rt merged).*1) as Hnodup
      by (rewrite Hperm; apply NoDup_fst_map_to_list).
    destruct (encryptLoop_lookup hybridEncrypt rt s _ _ 0 ∅ _ j key value
                Hnodup Henc Hj) as (enc & Hok & Hlookup).
    by exists j, enc. }
  destruct (Values opts !! key) as [value|].
  - by apply Hsealed.
  - destruct (existingData !! key) as [value|]; [by apply Hsealed|].
    rewrite (encryptLoop_lookup_other hybridEncrypt rt s _ _ 0 ∅ _ key Henc);
      [done|].
    rewrite Hperm. intros ([k v] & -> & Hin%elem_of_map_to_list)%list_elem_of_fmap.
    cbn in Hmerged. congruence.
Qed.

End merge_sealed.

Lemma mergeRecord_sealed :
  sealedRecord stubEncrypt stubPublicKey stubRuntime mergeCluster
    (strictRequest {[ "b" := "3"; "c" := "4" ]}) [] = Ok mergeRecord.
Proof. vm_compute. reflexivity. Defined.

Lemma plaintext_merge_sealed_witness :
  (encryptValues stubEncrypt stubRuntime mergeCluster
     (requestOf (strictRequest {[ "b" := "3"; "c" := "4" ]})
        {[ "a" := "1"; "b" := "2" ]} tt)
   = Ok (EncryptedData (Spec mergeRecord))
   ∧ values (requestOf (strictRequest {[ "b" := "3"; "c" := "4" ]})
               {[ "a" := "1"; "b" := "2" ]} tt) !! "b" = Some "3"
   ∧ ∃ j enc,
       stubEncrypt (entropy stubRuntime j) tt "3"
         (getLabel mergeCluster
            (requestOf (strictRequest {[ "b" := "3"; "c" := "4" ]})
               {[ "a" := "1"; "b" := "2" ]} tt)) = Ok enc
       ∧ EncryptedData (Spec mergeRecord) !! "b" = Some enc)
  ∧ ∃ j enc,
      stubEncrypt (entropy stubRuntime j) tt "1"
        (getLabel mergeCluster
           (requestOf (strictRequest {[ "b" := "3"; "c" := "4" ]})
              {[ "a" := "1"; "b" := "2" ]} tt)) = Ok enc
      ∧ EncryptedData (Spec mergeRecord) !! "a" = Some enc.
Proof.
  pose proof (λ key, plaintext_merge_sealed stubEncrypt stubPublicKey stubRuntime
                mergeCluster (strictRequest {[ "b" := "3"; "c" := "4" ]}) []
                {[ "a" := "1"; "b" := "2" ]} tt mergeRecord key
                (λ m, reflexivity (map_to_list m))) as Hmerge.
  assert (getSecretData mergeCluster "prod" "db" = Ok {[ "a" := "1"; "b" := "2" ]})
    as Hdata by (vm_compute; reflexivity).
  assert (Values (strictRequest {[ "b" := "3"; "c" := "4" ]}) !! "b" = Some "3")
    as Hb by (vm_compute; reflexivity).
  assert (Values (strictRequest {[ "b" := "3"; "c" := "4" ]}) !! "a" = None)
    as Ha by (vm_compute; reflexivity).
  assert (({[ "a" := "1"; "b" := "2" ]} : gmap string string) !! "a" = Some "1")
    as Hstored by (vm_compute; reflexivity).
  split.
  - specialize (Hmerge "b" Hdata eq_refl mergeRecord_sealed).
    by rewrite Hb in Hmerge.
  - specialize (Hmerge "a" Hdata eq_refl mergeRecord_sealed).
    rewrite Ha, Hstored in Hmerge. apply Hmerge.
Defined.

(** ** A key/value line inside an input *)
Section line_in_input.

Lemma loopBody_afterKeyValueLine (i : nat) (key value : string) (st : locals) :
  multilineKey st = "" →
  strings.ContainsByte key "="%char = false →
  loopBody i (key +:+ String "="%char value) st
  = Ok (afterKeyValueLine key value st).
Proof.
  intros Hout Hkey. unfold loopBody, strings.SplitN2, afterKeyValueLine.
  rewrite (Cut_app _ _ _ Hkey), Hout. cbn. rewrite CutPrefix_backtick.
  destruct value as [|c body]; [done|].
  destruct (Ascii.eqb c "`"%char); [|done].
  by destruct (cutBlockLine body) as [part []].
Qed.

(** C9. A line read outside a block (the loop's [multilineKey] is empty)
    that contains a separator is split at the first one: the key is the text
    before it, which may be empty, and the value is everything after it,
    further separators included.  Unless the value begins with a backtick,
    it is stored under the key as it stands, with nothing trimmed, and the
    other variables of the loop are left alone; when it does, the block is
    opened under that key with the rest of the value.  So it is in
    [parseKeyValuePairs]: wherever the line stands in an input, once the
    lines before it are read and leave no block open, the parser goes on
    from these variables; the line alone parses to its one entry, and put
    after an input that parses it adds its entry to the mapping of that
    input. *)
Theorem separator_splits_at_first_equals
    (i : nat) (key value : string) (st : locals) :
  multilineKey st = "" →
  strings.ContainsByte key "="%char = false →
  strings.SplitN2 (key +:+ String "="%char value) "="%char = [key; value]
  ∧ (strings.HasPrefix value "`" = false →
     loopBody i (key +:+ String "="%char value) st
     = Ok (Locals (<[key := value]> (result st)) "" (multilineValue st)))
  ∧ (∀ body, value = String "`"%char body →
     loopBody i (key +:+ String "="%char value) st
     = let '(part, isEndOfBlock) := cutBlockLine body in
       if isEndOfBlock
       then Ok (Locals (<[key := multilineValue st +:+ part]> (result st)) "" "")
       else Ok (Locals (result st) key (multilineValue st +:+ part)))
  ∧ (∀ data before after,
       strings.Split data "010"%char
       = (before ++ (key +:+ String "="%char value) :: after)%list →
       rangeLines 0 before (Locals ∅ "" "") = Ok st →
       parseKeyValuePairs data
       = finishParse (rangeLines (S (length before)) after
                        (afterKeyValueLine key value st)))
  ∧ (strings.HasPrefix value "`" = false →
     strings.ContainsByte (key +:+ String "="%char value) "010"%char = false →
     parseKeyValuePairs (key +:+ String "="%char value) = Ok {[ key := value ]}
     ∧ ∀ data mapping,
         parseKeyValuePairs data = Ok mapping →
         parseKeyValuePairs
           (data +:+ String "010"%char (key +:+ String "="%char value))
         = Ok (<[key := value]> mapping)).
Proof.
  intros Hout Hkey.
  assert (∀ (st0 : locals) data before after,
            multilineKey st0 = "" →
            strings.Split data "010"%char
            = (before ++ (key +:+ String "="%char value) :: after)%list →
            rangeLines 0 before (Locals ∅ "" "") = Ok st0 →
            parseKeyValuePairs data
            = finishParse (rangeLines (S (length before)) after
                             (afterKeyValueLine key value st0))) as Hcontext.
  { intros st0 data before after Hout0 Hsplit Hbefore.
    rewrite parseKeyValuePairs_lines.
    - rewrite Hsplit, rangeLines_app, Hbefore. cbn [rangeLines Nat.add].
      by rewrite (loopBody_afterKeyValueLine _ _ _ _ Hout0 Hkey).
    - rewrite Hsplit. destruct before as [|? [|? ?]]; [|done..].
      destruct after; [|done]. by destruct key. }
  split; [|split; [|split; [|split]]].
  - unfold strings.SplitN2. by rewrite (Cut_app _ _ _ Hkey).
  - intros Hvalue. rewrite (loopBody_afterKeyValueLine _ _ _ _ Hout Hkey).
    unfold afterKeyValueLine. destruct value as [|c body]; [done|].
    unfold strings.HasPrefix in Hvalue. cbn in Hvalue.
    destruct (Ascii.eqb c "`"%char); [done|]. done.
  - intros body ->. rewrite (loopBody_afterKeyValueLine _ _ _ _ Hout Hkey).
    cbn. by destruct (cutBlockLine body) as [part []].
  - intros data before after. by apply (Hcontext st).
  - intros Hvalue Hnl.
    assert (∀ st0, afterKeyValueLine key value st0
                   = Locals (<[key := value]> (result st0)) ""
                            (multilineValue st0)) as Hafter.
    { intros st0. unfold afterKeyValueLine. destruct value as [|c body]; [done|].
      unfold strings.HasPrefix in Hvalue. cbn in Hvalue.
      by destruct (Ascii.eqb c "`"%char). }
    split.
    + rewrite (Hcontext (Locals ∅ "" "") _ [] []); [|done| |done].
      * by rewrite Hafter.
      * by apply Split_no_LF.
    + intros data mapping (Hne & st0 & Hrun & Hkey0 & <-)%parseKeyValuePairs_Ok.
      rewrite (Hcontext st0 _ (strings.Split data "010"%char) []);
        [|done| |done].
      * rewrite Hafter. done.
      * by rewrite Split_app_LF, (Split_no_LF _ Hnl).
Qed.

End line_in_input.

Lemma separator_splits_at_first_equals_witness :
  strings.SplitN2 "= a=b " "="%char = [""; " a=b "]
  ∧ loopBody 0 "= a=b " (Locals ∅ "" "") = Ok (Locals {[ "" := " a=b " ]} "" "")
  ∧ parseKeyValuePairs "= a=b " = Ok {[ "" := " a=b " ]}
  ∧ parseKeyValuePairs ("x=1" +:+ String "010"%char "= a=b ")
    = Ok (<["" := " a=b "]> {[ "x" := "1" ]}).
Proof.
  destruct (separator_splits_at_first_equals 0 "" " a=b " (Locals ∅ "" "")
              eq_refl eq_refl) as (Hsplit & Hbody & _ & _ & Hparse).
  destruct (Hparse eq_refl eq_refl) as [Halone Hafter].
  split; [exact Hsplit|]. split; [exact (Hbody eq_refl)|].
  split; [exact Halone|]. apply (Hafter "x=1" {[ "x" := "1" ]}).
  vm_compute. reflexivity.
Defined.
